(** * UVM Master Class: walkthrough controller and sequence builder

    A shallow embedding of the two pieces of logic of the application:
    - [App]: the walkthrough cursor of [src/App.tsx] together with the
      click guard of [src/components/UvmDiagram.tsx];
    - [SequenceBuilder]: the step list, the pending form and the text
      template [generateCode] of [src/components/SequenceBuilder.tsx].

    React state is modelled by explicit state passing: every handler is a
    function from the state of the render it closes over to the next state.
    A handler that would raise a [TypeError] returns [None]. *)

From Stdlib Require Import ZArith List String Ascii Bool Lia.
From Stdlib Require Import Numbers.DecimalString Numbers.DecimalZ.
Import ListNotations.

Open Scope string_scope.
Open Scope Z_scope.

(** ** The fragment of JavaScript the components rely on *)

Module JS.

(** Texts are JavaScript strings in their UTF-8 encoding, one [ascii] per
    byte.

    A [number] that the components can hold: the result of [parseInt], a
    literal, [Date.now()] or [index + 1].  These are the doubles without
    fraction, the two infinities and [NaN].  [Num z] is the double of
    value [z]; [-0] is identified with [0] (both are falsy and both print
    as ["0"]). *)
Inductive number : Type :=
  | NaN
  | Num (z : Z)
  | Infinity (negative : bool).

(** [ToBoolean] on a number: [0] and [NaN] are falsy. *)
Definition truthy (n : number) : bool :=
  match n with
  | NaN => false
  | Num z => negb (z =? 0)
  | Infinity _ => true
  end.

(** [a || b] on numbers. *)
Definition or (a b : number) : number :=
  if truthy a then a else b.

(** [a || b] where [a] may be [undefined]. *)
Definition or_undef (a : option number) (b : number) : number :=
  match a with
  | Some n => or n b
  | None => b
  end.

(** [a || b] on strings that may be [undefined]: [undefined] and the empty
    string are falsy. *)
Definition or_string (a : option string) (b : string) : string :=
  match a with
  | Some EmptyString => b
  | Some s => s
  | None => b
  end.

(** [n > 0]: any comparison with [NaN] is false. *)
Definition gt0 (n : number) : bool :=
  match n with
  | NaN => false
  | Num z => 0 <? z
  | Infinity negative => negb negative
  end.

(** [String(n)], as a template literal or [toString()] prints it.  For an
    integer the digits of the value are printed; this is what JavaScript
    prints for every integer below [2^53] in size (above, it prints the
    shortest digits that read back as the same double, and an exponent
    from [1e21]). *)
Definition toString (n : number) : string :=
  match n with
  | NaN => "NaN"
  | Num z => NilEmpty.string_of_int (Z.to_int z)
  | Infinity false => "Infinity"
  | Infinity true => "-Infinity"
  end.

(** *** The integers that a double holds *)

(** The double nearest to the integer [z], ties to the even significand of
    53 bits; an infinity from [2^1024] on. *)
Definition toDouble (z : Z) : number :=
  let a := Z.abs z in
  let v :=
    if a <? 2 ^ 53 then a
    else
      let e := Z.log2 a - 52 in
      let q := a / 2 ^ e in
      let r := a mod 2 ^ e in
      let half := 2 ^ (e - 1) in
      let q' := if (half <? r) || ((r =? half) && Z.odd q) then q + 1 else q in
      q' * 2 ^ e in
  if v <? 2 ^ 1024 then Num (Z.sgn z * v) else Infinity (z <? 0).

(** *** [parseInt(text)] with no radix argument *)

(** The white space of one byte: TAB, LF, VT, FF, CR and SP. *)
Definition isWhiteSpace (c : ascii) : bool :=
  let n := nat_of_ascii c in
  ((n =? 9) || (n =? 10) || (n =? 11) || (n =? 12) || (n =? 13) || (n =? 32))%nat.

(** The third byte of U+2000 to U+200A, U+2028, U+2029 and U+202F, after
    the bytes [E2 80]. *)
Definition isSpaceE280 (c : ascii) : bool :=
  let n := nat_of_ascii c in
  (((128 <=? n) && (n <=? 138)) || (n =? 168) || (n =? 169) || (n =? 175))%nat.

(** [s.trimStart()], which is also the first step of [parseInt]: the
    white space and line terminators of JavaScript are skipped, those of
    one byte and U+00A0, U+1680, U+2000 to U+200A, U+2028, U+2029, U+202F,
    U+205F, U+3000 and U+FEFF. *)
Fixpoint trimStart (s : string) : string :=
  match s with
  | EmptyString => EmptyString
  | String c r =>
      if isWhiteSpace c then trimStart r
      else
        match c, r with
        | "194"%char, String "160" r' => trimStart r'
        | "225"%char, String "154" (String "128" r') => trimStart r'
        | "226"%char, String "128" (String c3 r') =>
            if isSpaceE280 c3 then trimStart r' else s
        | "226"%char, String "129" (String "159" r') => trimStart r'
        | "227"%char, String "128" (String "128" r') => trimStart r'
        | "239"%char, String "187" (String "191" r') => trimStart r'
        | _, _ => s
        end
  end.

(** Value of a character as a digit, in any radix up to 36. *)
Definition digitValue (c : ascii) : option Z :=
  let n := Z.of_nat (nat_of_ascii c) in
  if (48 <=? n) && (n <=? 57) then Some (n - 48)
  else if (97 <=? n) && (n <=? 122) then Some (n - 87)
  else if (65 <=? n) && (n <=? 90) then Some (n - 55)
  else None.

(** The values of the longest prefix of radix-[R] digits. *)
Fixpoint takeDigits (R : Z) (s : string) : list Z :=
  match s with
  | EmptyString => []
  | String c r =>
      match digitValue c with
      | Some v => if v <? R then v :: takeDigits R r else []
      | None => []
      end
  end.

Definition mathInt (R : Z) (ds : list Z) : Z :=
  fold_left (fun acc d => acc * R + d) ds 0.

(** Sign and remainder after an optional leading ["+"] or ["-"]. *)
Definition splitSign (s : string) : Z * string :=
  match s with
  | String "-" r => (-1, r)
  | String "+" r => (1, r)
  | _ => (1, s)
  end.

(** Radix and remainder after an optional ["0x"] / ["0X"]. *)
Definition splitRadix (s : string) : Z * string :=
  match s with
  | String "0" (String "x" r) => (16, r)
  | String "0" (String "X" r) => (16, r)
  | _ => (10, s)
  end.

(** The integer that the digits denote is turned into a number, that is
    rounded to the nearest double, as the engines do (the standard lets
    an implementation read the digits after the twentieth as zeros). *)
Definition parseInt (text : string) : number :=
  let '(sign, s1) := splitSign (trimStart text) in
  let '(R, s2) := splitRadix s1 in
  match takeDigits R s2 with
  | [] => NaN
  | ds => toDouble (sign * mathInt R ds)
  end.

End JS.

(** ** [src/types.ts] *)

Inductive UvmComponentType : Type :=
  | TOP | TEST | ENV | AGENT | SEQUENCER | DRIVER | MONITOR
  | SCOREBOARD | DUT | INTERFACE | SEQUENCE | CONFIG_DB.

Inductive TransactionKind : Type :=
  | READ | WRITE | IDLE.

(** The string value of each enum member. *)
Definition kindText (k : TransactionKind) : string :=
  match k with
  | READ => "READ"
  | WRITE => "WRITE"
  | IDLE => "IDLE"
  end.

(** ** [src/App.tsx] and the click guard of [src/components/UvmDiagram.tsx] *)

Module App.

(** [SimulationStep]; [description] and [codeSnippet] are display text that
    no transition reads and are left out. *)
Record SimulationStep : Type := {
  id : Z;
  label : string;
  component : UvmComponentType
}.

Definition WALKTHROUGH_STEPS : list SimulationStep :=
  [ {| id := 0; label := "Sequence Creation"; component := SEQUENCE |};
    {| id := 1; label := "Sequencer Arbitration"; component := SEQUENCER |};
    {| id := 2; label := "Driver Fetches Item"; component := DRIVER |};
    {| id := 3; label := "Driving Signals (Pin Level)"; component := INTERFACE |};
    {| id := 4; label := "DUT Execution"; component := DUT |};
    {| id := 5; label := "Monitor Sampling"; component := MONITOR |};
    {| id := 6; label := "Scoreboard Check"; component := SCOREBOARD |} ].

(** [WALKTHROUGH_STEPS.length] *)
Definition totalSteps : Z := Z.of_nat (List.length WALKTHROUGH_STEPS).

(** [WALKTHROUGH_STEPS[i]]: [None] stands for [undefined]. *)
Definition stepAt (i : Z) : option SimulationStep :=
  if i <? 0 then None else nth_error WALKTHROUGH_STEPS (Z.to_nat i).

Inductive ViewMode : Type :=
  | architecture
  | builder.

(** The state hooks of [App] that the walkthrough reads or writes. *)
Record State : Type := {
  activeComponent : UvmComponentType;
  viewMode : ViewMode;
  simulationStepIndex : Z
}.

Definition initial : State :=
  {| activeComponent := DRIVER;
     viewMode := architecture;
     simulationStepIndex := -1 |}.

Definition setActiveComponent (c : UvmComponentType) (st : State) : State :=
  {| activeComponent := c;
     viewMode := viewMode st;
     simulationStepIndex := simulationStepIndex st |}.

Definition setSimulationStepIndex (i : Z) (st : State) : State :=
  {| activeComponent := activeComponent st;
     viewMode := viewMode st;
     simulationStepIndex := i |}.

Definition setViewMode (m : ViewMode) (st : State) : State :=
  {| activeComponent := activeComponent st;
     viewMode := m;
     simulationStepIndex := simulationStepIndex st |}.

(** Reading [.component] of [undefined] raises: [None]. *)
Definition componentAt (i : Z) : option UvmComponentType :=
  option_map component (stepAt i).

Definition startSimulation (st : State) : option State :=
  match componentAt 0 with
  | Some c => Some (setActiveComponent c (setSimulationStepIndex 0 st))
  | None => None
  end.

Definition nextStep (st : State) : option State :=
  if simulationStepIndex st <? totalSteps - 1 then
    let next := simulationStepIndex st + 1 in
    match componentAt next with
    | Some c => Some (setActiveComponent c (setSimulationStepIndex next st))
    | None => None
    end
  else Some st.

Definition prevStep (st : State) : option State :=
  if 0 <? simulationStepIndex st then
    let prev := simulationStepIndex st - 1 in
    match componentAt prev with
    | Some c => Some (setActiveComponent c (setSimulationStepIndex prev st))
    | None => None
    end
  else Some st.

Definition stopSimulation (st : State) : State :=
  setSimulationStepIndex (-1) st.

Definition isSameComponent (a b : UvmComponentType) : bool :=
  match a, b with
  | TOP, TOP | TEST, TEST | ENV, ENV | AGENT, AGENT
  | SEQUENCER, SEQUENCER | DRIVER, DRIVER | MONITOR, MONITOR
  | SCOREBOARD, SCOREBOARD | DUT, DUT | INTERFACE, INTERFACE
  | SEQUENCE, SEQUENCE | CONFIG_DB, CONFIG_DB => true
  | _, _ => false
  end.

Definition handleViewChange (mode : ViewMode) (st : State) : State :=
  let st1 := setSimulationStepIndex (-1) (setViewMode mode st) in
  match mode with
  | builder => setActiveComponent SEQUENCE st1
  | architecture =>
      if isSameComponent (activeComponent st) SEQUENCE
      then setActiveComponent DRIVER st1
      else st1
  end.

(** [UvmDiagram]: [const isSimulating = simulationStepIndex >= 0]. *)
Definition isSimulating (st : State) : bool :=
  0 <=? simulationStepIndex st.

(** The [onClick] of every block of the diagram:
    [!isSimulating && onSelectComponent(type)], where [App] passes
    [setActiveComponent] as [onSelectComponent]. *)
Definition onClick (type : UvmComponentType) (st : State) : State :=
  if negb (isSimulating st) then setActiveComponent type st else st.

(** The walkthrough buttons. *)
Inductive Nav : Type :=
  | Next
  | Prev.

Definition nav (n : Nav) (st : State) : option State :=
  match n with
  | Next => nextStep st
  | Prev => prevStep st
  end.

(** A sequence of calls, stopping at the first one that raises. *)
Fixpoint navs (ns : list Nav) (st : State) : option State :=
  match ns with
  | [] => Some st
  | n :: r =>
      match nav n st with
      | Some st' => navs r st'
      | None => None
      end
  end.

(** Every event that reaches the state of [App]. *)
Inductive Event : Type :=
  | Start
  | Step (n : Nav)
  | Stop
  | Click (c : UvmComponentType)
  | ViewChange (m : ViewMode).

Definition handle (e : Event) (st : State) : option State :=
  match e with
  | Start => startSimulation st
  | Step n => nav n st
  | Stop => Some (stopSimulation st)
  | Click c => Some (onClick c st)
  | ViewChange m => Some (handleViewChange m st)
  end.

Fixpoint run (es : list Event) (st : State) : option State :=
  match es with
  | [] => Some st
  | e :: r =>
      match handle e st with
      | Some st' => run r st'
      | None => None
      end
  end.

(** The cursor is on a step. *)
Definition onStep (st : State) : Prop :=
  0 <= simulationStepIndex st <= totalSteps - 1.

(** The cursor is in its domain and, on a step, the active component is
    that step's. *)
Definition consistent (st : State) : Prop :=
  simulationStepIndex st = -1 \/
  (onStep st /\ componentAt (simulationStepIndex st) = Some (activeComponent st)).

End App.

(** ** [src/components/SequenceBuilder.tsx] *)

(** The line feed and the double quote of the template literals. *)
Definition nl : string := String "010"%char EmptyString.
Definition dq : string := String "034"%char EmptyString.

Module SequenceBuilder.

(** [SequenceStep] of [src/types.ts]. *)
Record SequenceStep : Type := {
  id : string;
  kind : TransactionKind;
  addr : string;
  data : string;
  delay : JS.number
}.

(** [Partial<SequenceStep>]: every field may be [undefined]. *)
Module Partial.
Record t : Type := {
  id : option string;
  kind : option TransactionKind;
  addr : option string;
  data : option string;
  delay : option JS.number
}.
End Partial.

(** The three state hooks of the component. *)
Record State : Type := {
  steps : list SequenceStep;
  currentStep : Partial.t;
  generatedCode : string
}.

Definition setSteps (l : list SequenceStep) (st : State) : State :=
  {| steps := l;
     currentStep := currentStep st;
     generatedCode := generatedCode st |}.

Definition setCurrentStep (p : Partial.t) (st : State) : State :=
  {| steps := steps st;
     currentStep := p;
     generatedCode := generatedCode st |}.

Definition setGeneratedCode (code : string) (st : State) : State :=
  {| steps := steps st;
     currentStep := currentStep st;
     generatedCode := code |}.

(** [addStep]; [now] is the value of [Date.now()]. *)
Definition newStep (now : Z) (cur : Partial.t) : SequenceStep :=
  {| id := JS.toString (JS.Num now);
     kind := match Partial.kind cur with Some k => k | None => WRITE end;
     addr := JS.or_string (Partial.addr cur) "0";
     data := JS.or_string (Partial.data cur) "0";
     delay := JS.or_undef (Partial.delay cur) (JS.Num 0) |}.

Definition addStep (now : Z) (st : State) : State :=
  setSteps (steps st ++ [newStep now (currentStep st)])%list st.

(** [removeStep]: [steps.filter(s => s.id !== id)]. *)
Definition removeStep (i : string) (st : State) : State :=
  setSteps (filter (fun s => negb (String.eqb (id s) i)) (steps st)) st.

(** The [Clear All] button: [setSteps([])]. *)
Definition clearAll (st : State) : State :=
  setSteps [] st.

(** [array.forEach((x, index) => ...)] threading the variable the callback
    assigns to. *)
Fixpoint forEach {A St : Type} (f : St -> A -> nat -> St)
    (arr : list A) (index : nat) (acc : St) : St :=
  match arr with
  | [] => acc
  | x :: r => forEach f r (S index) (f acc x index)
  end.

Definition isIDLE (k : TransactionKind) : bool :=
  match k with IDLE => true | _ => false end.

Definition isWRITE (k : TransactionKind) : bool :=
  match k with WRITE => true | _ => false end.

(** The callback of [steps.forEach] in [generateCode]; each [let] is one
    [code += ...]. *)
Definition emitStep (code : string) (step : SequenceStep) (index : nat) : string :=
  let code := code ++ ("    // Step " ++ JS.toString (JS.Num (Z.of_nat index + 1))
                         ++ ": " ++ kindText (kind step) ++ nl) in
  if isIDLE (kind step) then
    code ++ ("    #" ++ JS.toString (JS.or (delay step) (JS.Num 10)) ++ ";" ++ nl ++ nl)
  else
    let code := code ++ ("    req = my_transaction::type_id::create(" ++ dq ++ "req" ++ dq ++ ");" ++ nl) in
    let code := code ++ ("    start_item(req);" ++ nl) in
    let code := code ++ ("    if (!req.randomize() with {" ++ nl) in
    let code := code ++ ("      addr == " ++ addr step ++ ";" ++ nl) in
    let code := code ++ ("      kind == " ++ kindText (kind step) ++ ";" ++ nl) in
    let code :=
      if isWRITE (kind step)
      then code ++ ("      data == " ++ data step ++ ";" ++ nl)
      else code in
    let code := code ++ ("    }) `uvm_error(" ++ dq ++ "SEQ" ++ dq ++ ", " ++ dq
                           ++ "Randomization failed" ++ dq ++ ")" ++ nl) in
    let code := code ++ ("    finish_item(req);" ++ nl) in
    let code :=
      if JS.gt0 (delay step)
      then code ++ ("    #" ++ JS.toString (delay step) ++ ";" ++ nl)
      else code in
    code ++ nl.

Definition generateCode (steps : list SequenceStep) : string :=
  let code := "class my_custom_seq extends uvm_sequence #(my_transaction);" ++ nl in
  let code := code ++ ("  `uvm_object_utils(my_custom_seq)" ++ nl ++ nl) in
  let code := code ++ ("  function new(string name = " ++ dq ++ "my_custom_seq" ++ dq ++ ");" ++ nl
                         ++ "    super.new(name);" ++ nl ++ "  endfunction" ++ nl ++ nl) in
  let code := code ++ ("  virtual task body();" ++ nl ++ "    my_transaction req;" ++ nl ++ nl) in
  let code :=
    if (List.length steps =? 0)%nat
    then code ++ ("    // Add transactions to see code here" ++ nl)
    else code in
  let code := forEach emitStep steps 0%nat code in
  code ++ ("  endtask" ++ nl ++ "endclass").

(** [useEffect(() => setGeneratedCode(generateCode()), [steps])]: runs after
    the first render and after every render in which [steps] is a new
    array. *)
Definition effect (st : State) : State :=
  setGeneratedCode (generateCode (steps st)) st.

(** The state after the first render and its effect. *)
Definition initial : State :=
  effect
    {| steps := [];
       currentStep :=
         {| Partial.id := None;
            Partial.kind := Some WRITE;
            Partial.addr := Some "'h1000";
            Partial.data := Some "'hFF";
            Partial.delay := Some (JS.Num 0) |};
       generatedCode := "" |}.

(** The [onChange] and [onClick] handlers of the form: each spreads
    [currentStep] and overwrites one field. *)
Definition withKind (k : TransactionKind) (p : Partial.t) : Partial.t :=
  {| Partial.id := Partial.id p; Partial.kind := Some k;
     Partial.addr := Partial.addr p; Partial.data := Partial.data p;
     Partial.delay := Partial.delay p |}.

Definition withAddr (v : string) (p : Partial.t) : Partial.t :=
  {| Partial.id := Partial.id p; Partial.kind := Partial.kind p;
     Partial.addr := Some v; Partial.data := Partial.data p;
     Partial.delay := Partial.delay p |}.

Definition withData (v : string) (p : Partial.t) : Partial.t :=
  {| Partial.id := Partial.id p; Partial.kind := Partial.kind p;
     Partial.addr := Partial.addr p; Partial.data := Some v;
     Partial.delay := Partial.delay p |}.

Definition withDelay (n : JS.number) (p : Partial.t) : Partial.t :=
  {| Partial.id := Partial.id p; Partial.kind := Partial.kind p;
     Partial.addr := Partial.addr p; Partial.data := Partial.data p;
     Partial.delay := Some n |}.

Definition onClickKind (k : TransactionKind) (st : State) : State :=
  setCurrentStep (withKind k (currentStep st)) st.

Definition onChangeAddr (value : string) (st : State) : State :=
  setCurrentStep (withAddr value (currentStep st)) st.

Definition onChangeData (value : string) (st : State) : State :=
  setCurrentStep (withData value (currentStep st)) st.

(** [delay: parseInt(e.target.value) || 0] *)
Definition onChangeDelay (value : string) (st : State) : State :=
  setCurrentStep
    (withDelay (JS.or (JS.parseInt value) (JS.Num 0)) (currentStep st)) st.

(** Every event of the component; the handlers that replace [steps] are
    followed by the effect. *)
Inductive Event : Type :=
  | AddStep (now : Z)
  | RemoveStep (i : string)
  | ClearAll
  | ClickKind (k : TransactionKind)
  | ChangeAddr (value : string)
  | ChangeData (value : string)
  | ChangeDelay (value : string).

Definition handle (e : Event) (st : State) : State :=
  match e with
  | AddStep now => effect (addStep now st)
  | RemoveStep i => effect (removeStep i st)
  | ClearAll => effect (clearAll st)
  | ClickKind k => onClickKind k st
  | ChangeAddr v => onChangeAddr v st
  | ChangeData v => onChangeData v st
  | ChangeDelay v => onChangeDelay v st
  end.

Definition run (es : list Event) (st : State) : State :=
  fold_left (fun s e => handle e s) es st.

End SequenceBuilder.

(** ** The compile contract, as the specification words it

    The skeleton of the compiled text, piece by piece, against which the
    accumulating loop of [generateCode] is compared. *)

Module Spec.

Import SequenceBuilder.

(** The fixed default wait of an [IDLE] step. *)
Definition DEFAULT_WAIT : JS.number := JS.Num 10.

(** The fixed class-declaration preamble, up to the opening of the body. *)
Definition preamble : string :=
  "class my_custom_seq extends uvm_sequence #(my_transaction);" ++ nl
  ++ "  `uvm_object_utils(my_custom_seq)" ++ nl
  ++ nl
  ++ "  function new(string name = " ++ dq ++ "my_custom_seq" ++ dq ++ ");" ++ nl
  ++ "    super.new(name);" ++ nl
  ++ "  endfunction" ++ nl
  ++ nl
  ++ "  virtual task body();" ++ nl
  ++ "    my_transaction req;" ++ nl
  ++ nl.

(** The fixed closing boilerplate. *)
Definition closing : string :=
  "  endtask" ++ nl ++ "endclass".

(** The placeholder comment line of an empty list. *)
Definition placeholder : string :=
  "    // Add transactions to see code here" ++ nl.

(** What every per-step block starts with. *)
Definition stepMarker : string := "    // Step ".

(** The numbered comment line: 1-based position and kind. *)
Definition stepComment (position : Z) (k : TransactionKind) : string :=
  stepMarker ++ JS.toString (JS.Num position) ++ ": " ++ kindText k ++ nl.

(** A wait line. *)
Definition waitLine (d : JS.number) : string :=
  "    #" ++ JS.toString d ++ ";" ++ nl.

(** Creation and start of randomization. *)
Definition createLines : string :=
  "    req = my_transaction::type_id::create(" ++ dq ++ "req" ++ dq ++ ");" ++ nl
  ++ "    start_item(req);" ++ nl
  ++ "    if (!req.randomize() with {" ++ nl.

Definition addrConstraint (a : string) : string :=
  "      addr == " ++ a ++ ";" ++ nl.

Definition kindConstraint (k : TransactionKind) : string :=
  "      kind == " ++ kindText k ++ ";" ++ nl.

Definition dataConstraint (d : string) : string :=
  "      data == " ++ d ++ ";" ++ nl.

(** End of randomization and dispatch. *)
Definition dispatchLines : string :=
  "    }) `uvm_error(" ++ dq ++ "SEQ" ++ dq ++ ", " ++ dq ++ "Randomization failed" ++ dq ++ ")" ++ nl
  ++ "    finish_item(req);" ++ nl.

(** The create/randomize/dispatch template of a [READ] or [WRITE] step:
    [addr] and [kind] always, [data] only for [WRITE]. *)
Definition transactionLines (s : SequenceStep) : string :=
  createLines
  ++ addrConstraint (addr s)
  ++ kindConstraint (kind s)
  ++ (if isWRITE (kind s) then dataConstraint (data s) else "")
  ++ dispatchLines.

(** The wait of an [IDLE] step: its delay, or the default when the delay is
    zero or not a number. *)
Definition idleWait (d : JS.number) : JS.number :=
  match d with
  | JS.NaN => DEFAULT_WAIT
  | JS.Num z => if z =? 0 then DEFAULT_WAIT else d
  | JS.Infinity _ => d
  end.

(** The wait line after a [READ] or [WRITE] step: present when
    [delay > 0], absent otherwise. *)
Definition postWait (d : JS.number) : string :=
  if JS.gt0 d then waitLine d else "".

(** The block of the step at a 1-based position, closed by a blank line. *)
Definition block (position : Z) (s : SequenceStep) : string :=
  stepComment position (kind s)
  ++ (if isIDLE (kind s)
      then waitLine (idleWait (delay s))
      else transactionLines s ++ postWait (delay s))
  ++ nl.

Fixpoint blocks (position : Z) (l : list SequenceStep) : string :=
  match l with
  | [] => ""
  | s :: r => block position s ++ blocks (position + 1) r
  end.

Definition compile (l : list SequenceStep) : string :=
  preamble
  ++ match l with
     | [] => placeholder
     | _ => blocks 1 l
     end
  ++ closing.

(** *** Predicates used to state the properties *)

(** [needle] occurs in [text]. *)
Definition occurs (needle text : string) : bool :=
  match String.index 0 needle text with
  | Some _ => true
  | None => false
  end.

(** What the template prints of a step: its kind; for [READ] and [WRITE]
    the address, for [WRITE] the data, and the wait line if there is one;
    for [IDLE] the wait alone. *)
Definition rendered (s : SequenceStep)
  : TransactionKind * string * string * option JS.number :=
  match kind s with
  | IDLE => (IDLE, "", "", Some (idleWait (delay s)))
  | READ => (READ, addr s, "", if JS.gt0 (delay s) then Some (delay s) else None)
  | WRITE => (WRITE, addr s, data s, if JS.gt0 (delay s) then Some (delay s) else None)
  end.

(** A text without line feed. *)
Fixpoint singleLine (t : string) : bool :=
  match t with
  | EmptyString => true
  | String c r => negb (Ascii.eqb c "010") && singleLine r
  end.

(** The address and data that the template prints of a step hold no line
    feed. *)
Definition printsSingleLines (s : SequenceStep) : bool :=
  match rendered s with
  | (_, a, d, _) => singleLine a && singleLine d
  end.

(** No step of the list has an empty [addr] or [data]. *)
Definition filled (l : list SequenceStep) : Prop :=
  forall s, In s l -> addr s <> "" /\ data s <> "".

End Spec.

(** ** The rest of [src/App.tsx] and [src/components/UvmDiagram.tsx] *)

Module UvmDiagram.

Import App.

(** The [simulationStep] prop that [App] hands to the information panel:
    [simulationStepIndex >= 0 ? WALKTHROUGH_STEPS[simulationStepIndex] : null]. *)
Definition simulationStep (st : State) : option SimulationStep :=
  if 0 <=? simulationStepIndex st then stepAt (simulationStepIndex st) else None.

(** [disabled] of the previous and of the next button. *)
Definition prevDisabled (st : State) : bool :=
  simulationStepIndex st =? 0.

Definition nextDisabled (st : State) : bool :=
  simulationStepIndex st =? totalSteps - 1.

(** The blocks that the grid draws: every component but [CONFIG_DB]. *)
Definition drawn (c : UvmComponentType) : bool :=
  match c with
  | CONFIG_DB => false
  | _ => true
  end.

(** The events the rendered page can deliver.  The diagram is mounted in
    the architecture view only; it shows the start button while the
    walkthrough is off and the stop, previous and next buttons while it is
    on; a disabled button delivers no click. *)
Definition enabled (e : Event) (st : State) : bool :=
  match e with
  | ViewChange _ => true
  | _ =>
      match viewMode st with
      | builder => false
      | architecture =>
          match e with
          | Start => negb (isSimulating st)
          | Stop => isSimulating st
          | Step Next => isSimulating st && negb (nextDisabled st)
          | Step Prev => isSimulating st && negb (prevDisabled st)
          | Click c => drawn c
          | ViewChange _ => true
          end
      end
  end.

(** The states the page can be brought to. *)
Inductive reachable : State -> Prop :=
  | reachable_initial : reachable initial
  | reachable_step (e : Event) (st st' : State) :
      reachable st -> enabled e st = true -> handle e st = Some st' ->
      reachable st'.






End UvmDiagram.

(** ** More of the sequence builder *)

Module Clock.

Import SequenceBuilder.

(** The values of [Date.now()] at the [AddStep] events are later than
    [last] and strictly increasing. *)
Fixpoint increasing (last : Z) (es : list Event) : bool :=
  match es with
  | [] => true
  | AddStep now :: r => (last <? now) && increasing now r
  | _ :: r => increasing last r
  end.

(** The blocks of a list, each with its 1-based position. *)
Definition numbered (l : list SequenceStep) : list (nat * SequenceStep) :=
  combine (seq 0 (List.length l)) l.

End Clock.

(** ** More of JavaScript's strings *)

Module JSString.

(** [s.trimEnd()]: the text is cut where nothing but white space
    follows. *)
Fixpoint trimEnd (s : string) : string :=
  match s with
  | EmptyString => EmptyString
  | String c r =>
      match JS.trimStart s with
      | EmptyString => EmptyString
      | _ => String c (trimEnd r)
      end
  end.

(** [s.trim()] *)

Definition trim (s : string) : string :=
  trimEnd (JS.trimStart s).

(** [s.slice(n)] for [0 <= n]. *)
Fixpoint drop (n : nat) (s : string) : string :=
  match n, s with
  | O, _ => s
  | S _, EmptyString => EmptyString
  | S m, String _ r => drop m r
  end.

(** [text.replace(pattern, "")] with a string pattern: the first
    occurrence of the pattern is cut out, a text without one is returned
    as it is. *)
Fixpoint removeFirst (pattern : string) (text : string) : string :=
  match text with
  | EmptyString => EmptyString
  | String c r =>
      if String.prefix pattern text
      then drop (String.length pattern) text
      else String c (removeFirst pattern r)
  end.

End JSString.

(** ** [getComponentExplanation] of the tutor service

    The remote call is the function's input: it either rejects or resolves
    with a response whose [text] may be [undefined]. *)

Module GeminiService.

Import JSString.

Record AiResponse : Type := {
  explanation : string;
  codeSnippet : string
}.

Inductive Outcome : Type :=
  | Rejected
  | Resolved (text : option string).

(** The code fence. *)
Definition fence : string := "```".

(** [([\s\S]*?)```] : the shortest text up to a fence, and what follows
    the fence. *)
Fixpoint lazyUntilFence (s : string) : option (string * string) :=
  match s with
  | EmptyString => None
  | String c r =>
      if String.prefix fence s then Some (EmptyString, drop 3 s)
      else
        match lazyUntilFence r with
        | Some (captured, rest) => Some (String c captured, rest)
        | None => None
        end
  end.

(** One alternative of the expression, tried at the start of [s]: the
    opening text, the lazy group and the closing fence.  The result is the
    matched text and the group. *)
Definition alternative (opening : string) (s : string) : option (string * string) :=
  if String.prefix opening s then
    match lazyUntilFence (drop (String.length opening) s) with
    | Some (captured, _) => Some (opening ++ captured ++ fence, captured)
    | None => None
    end
  else None.

(** The result of [text.match(codeBlockRegex)]: [match[0]] and the three
    groups, [None] for a group that took no part. *)
Record Match : Type := {
  whole : string;
  group1 : option string;
  group2 : option string;
  group3 : option string
}.

(** The three alternatives, in their order, at the start of [s]. *)
Definition matchHere (s : string) : option Match :=
  match alternative "```systemverilog" s with
  | Some (w, g) => Some {| whole := w; group1 := Some g; group2 := None; group3 := None |}
  | None =>
      match alternative "```verilog" s with
      | Some (w, g) => Some {| whole := w; group1 := None; group2 := Some g; group3 := None |}
      | None =>
          match alternative "```" s with
          | Some (w, g) => Some {| whole := w; group1 := None; group2 := None; group3 := Some g |}
          | None => None
          end
      end
  end.

(** The leftmost match. *)
Fixpoint regexMatch (s : string) : option Match :=
  match matchHere s with
  | Some m => Some m
  | None =>
      match s with
      | EmptyString => None
      | String _ r => regexMatch r
      end
  end.

(** [match[1] || match[2] || match[3] || ""] *)
Definition firstGroup (m : Match) : string :=
  JS.or_string (group1 m) (JS.or_string (group2 m) (JS.or_string (group3 m) "")).

Definition getComponentExplanation (o : Outcome) : AiResponse :=
  match o with
  | Rejected =>
      {| explanation := "Failed to fetch explanation. Please check your API key or try again.";
         codeSnippet := "// Error generating code" |}
  | Resolved t =>
      let text := JS.or_string t "No explanation available." in
      match regexMatch text with
      | Some m =>
          {| explanation := trim (removeFirst (whole m) text);
             codeSnippet := trim (firstGroup m) |}
      | None =>
          {| explanation := text;
             codeSnippet := trim "// No code example generated." |}
      end
  end.

(** A text in which no fence starts. *)
Definition fenceFree (s : string) : Prop :=
  forall before after, s <> before ++ fence ++ after.

End GeminiService.

(** ** [handleSubmit] of the chat panel

    The tutor's stream is the function's input: the chunks it yields, and
    whether it then fails (a rejected request is a failure before the first
    chunk). *)

Module ChatInterface.

Import JSString.

Inductive Role : Type :=
  | user
  | model.

(** [ChatMessage] of [src/types.ts]; [isLoading] is optional. *)
Record ChatMessage : Type := {
  id : string;
  role : Role;
  content : string;
  isLoading : option bool
}.

Record State : Type := {
  messages : list ChatMessage;
  input : string;
  isStreaming : bool
}.

(** The locals of one call after its guard. *)
Record Request : Type := {
  modelMsgId : string;
  fullText : string
}.

Record Outcome : Type := {
  chunks : list string;
  failed : bool
}.

(** [!input.trim() || isStreaming] *)
Definition refused (st : State) : bool :=
  String.eqb (trim (input st)) "" || isStreaming st.

(** The part before the stream is awaited; [now1] and [now2] are the two
    values of [Date.now()]. *)
Definition begin (now1 now2 : Z) (st : State) : State * Request :=
  let userMsg :=
    {| id := JS.toString (JS.Num now1); role := user;
       content := input st; isLoading := None |} in
  let modelMsgId := JS.toString (JS.Num (now2 + 1)) in
  let modelMsgPlaceholder :=
    {| id := modelMsgId; role := model; content := ""; isLoading := Some true |} in
  ({| messages := ((messages st ++ [userMsg]) ++ [modelMsgPlaceholder])%list;
      input := "";
      isStreaming := true |},
   {| modelMsgId := modelMsgId; fullText := "" |}).

(** The history handed to the service: the messages of the render the
    handler closes over. *)
Definition historyApiFormat (st : State) : list (Role * string) :=
  map (fun m => (role m, content m)) (messages st).

(** [prev.map(msg => msg.id === i ? { ...msg, content: text, isLoading: false } : msg)] *)
Definition settle (i : string) (text : string) (prev : list ChatMessage)
  : list ChatMessage :=
  map (fun msg =>
         if String.eqb (id msg) i
         then {| id := id msg; role := role msg; content := text;
                 isLoading := Some false |}
         else msg) prev.

Definition setMessages (l : list ChatMessage) (st : State) : State :=
  {| messages := l; input := input st; isStreaming := isStreaming st |}.

(** One round of the [for await] loop. *)
Definition onChunk (p : State * Request) (chunk : string) : State * Request :=
  let '(st, r) := p in
  let fullText := fullText r ++ chunk in
  (setMessages (settle (modelMsgId r) fullText (messages st)) st,
   {| modelMsgId := modelMsgId r; fullText := fullText |}).

(** The [catch] block. *)
Definition onError (p : State * Request) : State :=
  let '(st, r) := p in
  setMessages (settle (modelMsgId r) "Error connecting to AI tutor." (messages st)) st.

(** The [finally] block. *)
Definition onFinally (st : State) : State :=
  {| messages := messages st; input := input st; isStreaming := false |}.

Definition handleSubmit (now1 now2 : Z) (o : Outcome) (st : State) : State :=
  if refused st then st
  else
    let p := fold_left onChunk (chunks o) (begin now1 now2 st) in
    onFinally (if failed o then onError p else fst p).

End ChatInterface.

(** * Properties of the walkthrough *)

Module Walkthrough.

Import App.

Lemma totalSteps_eq : totalSteps = 7.
Proof. reflexivity. Qed.

(** Inside the cursor's range every step has a component: the handlers
    never read a field of [undefined]. *)
Lemma componentAt_defined (i : Z) :
  0 <= i <= totalSteps - 1 -> exists c, componentAt i = Some c.
Proof.
  rewrite totalSteps_eq. intros Hi.
  assert (Hcases : i = 0 \/ i = 1 \/ i = 2 \/ i = 3 \/ i = 4 \/ i = 5 \/ i = 6) by lia.
  repeat (destruct Hcases as [-> | Hcases]); try subst i; eexists; reflexivity.
Qed.

Lemma nextStep_moves (st : State) :
  simulationStepIndex st < totalSteps - 1 ->
  -1 <= simulationStepIndex st ->
  exists c,
    componentAt (simulationStepIndex st + 1) = Some c /\
    nextStep st =
      Some (setActiveComponent c
              (setSimulationStepIndex (simulationStepIndex st + 1) st)).
Proof.
  intros Hlt Hge. unfold nextStep.
  destruct (Z.ltb_spec (simulationStepIndex st) (totalSteps - 1)) as [_ | Hno]; [| lia].
  destruct (componentAt_defined (simulationStepIndex st + 1)) as [c Hc]; [lia |].
  exists c. simpl. now rewrite Hc.
Qed.

Lemma nextStep_at_end (st : State) :
  totalSteps - 1 <= simulationStepIndex st -> nextStep st = Some st.
Proof.
  intros Hge. unfold nextStep.
  destruct (Z.ltb_spec (simulationStepIndex st) (totalSteps - 1)); [lia | reflexivity].
Qed.

Lemma prevStep_moves (st : State) :
  0 < simulationStepIndex st ->
  simulationStepIndex st <= totalSteps ->
  exists c,
    componentAt (simulationStepIndex st - 1) = Some c /\
    prevStep st =
      Some (setActiveComponent c
              (setSimulationStepIndex (simulationStepIndex st - 1) st)).
Proof.
  intros Hgt Hle. unfold prevStep.
  destruct (Z.ltb_spec 0 (simulationStepIndex st)) as [_ | Hno]; [| lia].
  destruct (componentAt_defined (simulationStepIndex st - 1)) as [c Hc]; [lia |].
  exists c. simpl. now rewrite Hc.
Qed.

Lemma prevStep_at_start (st : State) :
  simulationStepIndex st <= 0 -> prevStep st = Some st.
Proof.
  intros Hle. unfold prevStep.
  destruct (Z.ltb_spec 0 (simulationStepIndex st)); [lia | reflexivity].
Qed.

(** One call of [next()] or [prev()] on a step returns and stays on a
    step. *)
Lemma nav_onStep (n : Nav) (st : State) :
  onStep st -> exists st', nav n st = Some st' /\ onStep st'.
Proof.
  pose proof totalSteps_eq as HN.
  unfold onStep. intros Hin. destruct n; simpl.
  - destruct (Z.lt_ge_cases (simulationStepIndex st) (totalSteps - 1)) as [Hlt | Hge].
    + destruct (nextStep_moves st Hlt) as (c & _ & ->); [lia |].
      eexists; split; [reflexivity | simpl; lia].
    + rewrite nextStep_at_end by lia. now exists st.
  - destruct (Z.lt_ge_cases 0 (simulationStepIndex st)) as [Hgt | Hle].
    + destruct (prevStep_moves st Hgt) as (c & _ & ->); [lia |].
      eexists; split; [reflexivity | simpl; lia].
    + rewrite prevStep_at_start by lia. now exists st.
Qed.

(** One call of [next()] or [prev()] keeps the active component on the
    cursor's step. *)
Lemma nav_consistent (n : Nav) (st : State) :
  consistent st -> exists st', nav n st = Some st' /\ consistent st'.
Proof.
  pose proof totalSteps_eq as HN.
  intros [Hoff | [Hin Hact]].
  - destruct n; simpl.
    + destruct (nextStep_moves st) as (c & Hc & ->);
        [rewrite Hoff, totalSteps_eq; lia | lia |].
      eexists; split; [reflexivity |]. right. unfold onStep; simpl.
      rewrite Hoff in *. split; [lia | exact Hc].
    + rewrite prevStep_at_start by lia. exists st. split; [reflexivity | now left].
  - unfold onStep in Hin. destruct n; simpl.
    + destruct (Z.lt_ge_cases (simulationStepIndex st) (totalSteps - 1)) as [Hlt | Hge].
      * destruct (nextStep_moves st Hlt) as (c & Hc & ->); [lia |].
        eexists; split; [reflexivity |]. right. unfold onStep; simpl.
        split; [lia | exact Hc].
      * rewrite nextStep_at_end by lia. exists st.
        split; [reflexivity | right; now split].
    + destruct (Z.lt_ge_cases 0 (simulationStepIndex st)) as [Hgt | Hle].
      * destruct (prevStep_moves st Hgt) as (c & Hc & ->); [lia |].
        eexists; split; [reflexivity |]. right. unfold onStep; simpl.
        split; [lia | exact Hc].
      * rewrite prevStep_at_start by lia. exists st.
        split; [reflexivity | right; now split].
Qed.

Lemma handle_consistent (e : Event) (st : State) :
  consistent st -> exists st', handle e st = Some st' /\ consistent st'.
Proof.
  intros Hst. destruct e as [ | n | | c | m]; simpl.
  - eexists; split; [reflexivity |]. right. unfold onStep; simpl.
    split; [lia | reflexivity].
  - now apply nav_consistent.
  - eexists; split; [reflexivity | now left].
  - eexists; split; [reflexivity |]. unfold onClick, isSimulating.
    destruct Hst as [Hoff | [Hin Hact]].
    + rewrite Hoff; simpl. now left.
    + unfold onStep in Hin.
      destruct (Z.leb_spec 0 (simulationStepIndex st)); [| lia].
      simpl. right. now split.
  - eexists; split; [reflexivity |]. left.
    unfold handleViewChange.
    destruct m; [destruct (isSameComponent _ _) |]; reflexivity.
Qed.

(** Every sequence of events from the first render returns, and leaves the
    active component on the cursor's step while the walkthrough is on. *)
Lemma run_consistent (es : list Event) :
  forall st, consistent st -> exists st', run es st = Some st' /\ consistent st'.
Proof.
  induction es as [| e r IH]; intros st Hst; simpl.
  - now exists st.
  - destruct (handle_consistent e st Hst) as (st1 & -> & H1).
    now apply IH.
Qed.

Lemma initial_consistent : consistent initial.
Proof. now left. Qed.

(** C5: from any step [0 <= i <= N-1] of the [N = 7] steps, every sequence
    of [next()] and [prev()] calls returns (no call raises) and leaves the
    cursor in [[0, N-1]]; [next()] at [N-1] and [prev()] at [0] return the
    state unchanged. *)
Theorem cursor_stays_on_steps (ns : list Nav) (st : State) :
  0 <= simulationStepIndex st <= totalSteps - 1 ->
  totalSteps = 7 /\
  (exists st', navs ns st = Some st' /\
               0 <= simulationStepIndex st' <= totalSteps - 1) /\
  (simulationStepIndex st = totalSteps - 1 -> nextStep st = Some st) /\
  (simulationStepIndex st = 0 -> prevStep st = Some st).
Proof.
  intros Hin. split; [reflexivity |]. split; [| split].
  - revert st Hin. induction ns as [| n r IH]; intros st Hin; simpl.
    + now exists st.
    + destruct (nav_onStep n st Hin) as (st1 & -> & H1). now apply IH.
  - intros Hend. apply nextStep_at_end. lia.
  - intros Hstart. apply prevStep_at_start. lia.
Qed.

Lemma cursor_stays_on_steps_witness :
  let st := {| activeComponent := INTERFACE; viewMode := architecture;
               simulationStepIndex := 3 |} in
  let ns := [Next; Next; Next; Next; Next; Prev] in
  0 <= simulationStepIndex st <= totalSteps - 1 /\
  navs ns st = Some {| activeComponent := MONITOR; viewMode := architecture;
                       simulationStepIndex := 5 |} /\
  (exists st', navs ns st = Some st' /\
               0 <= simulationStepIndex st' <= totalSteps - 1).
Proof.
  intros st ns.
  assert (Hin : 0 <= simulationStepIndex st <= totalSteps - 1)
    by (simpl; lia).
  split; [exact Hin |]. split; [reflexivity |].
  exact (proj1 (proj2 (cursor_stays_on_steps ns st Hin))).
Defined.

(** C6: in every state the application can reach, a click on a diagram
    block while the walkthrough is on step [i] changes nothing, so the
    active component is still [WALKTHROUGH_STEPS[i].component]; while the
    walkthrough is off, the click makes the clicked block the active
    component. *)
Theorem click_ignored_while_simulating
    (es : list Event) (st : State) (c : UvmComponentType) :
  run es initial = Some st ->
  (0 <= simulationStepIndex st ->
     onClick c st = st /\
     componentAt (simulationStepIndex st) = Some (activeComponent (onClick c st))) /\
  (simulationStepIndex st = -1 ->
     activeComponent (onClick c st) = c /\
     simulationStepIndex (onClick c st) = -1).
Proof.
  intros Hrun.
  destruct (run_consistent es initial initial_consistent) as (st' & Hrun' & Hst).
  rewrite Hrun in Hrun'. injection Hrun' as <-.
  unfold onClick, isSimulating. split.
  - intros Hon.
    destruct (Z.leb_spec 0 (simulationStepIndex st)); [| lia]. simpl.
    split; [reflexivity |].
    destruct Hst as [Hoff | [_ Hact]]; [lia | exact Hact].
  - intros Hoff. rewrite Hoff. simpl. now split.
Qed.

Lemma click_ignored_while_simulating_witness :
  let es := [Start; Step Next; Step Next] in
  let st := {| activeComponent := DRIVER; viewMode := architecture;
               simulationStepIndex := 2 |} in
  run es initial = Some st /\
  onClick TOP st = st /\
  componentAt 2 = Some (activeComponent (onClick TOP st)).
Proof.
  intros es st.
  assert (Hrun : run es initial = Some st) by reflexivity.
  split; [exact Hrun |].
  apply (proj1 (click_ignored_while_simulating es st TOP Hrun)).
  simpl. lia.
Defined.

(** C7: from any state [stop()] sets the cursor to [-1]; a following
    [start()] returns, with the cursor on [0] and the active component
    [WALKTHROUGH_STEPS[0].component], whatever the cursor was before. *)
Theorem stop_then_start_restarts (st : State) :
  simulationStepIndex (stopSimulation st) = -1 /\
  option_map component (nth_error WALKTHROUGH_STEPS 0) = Some SEQUENCE /\
  startSimulation (stopSimulation st) =
    Some {| activeComponent := SEQUENCE;
            viewMode := viewMode st;
            simulationStepIndex := 0 |}.
Proof.
  repeat split.
Qed.

End Walkthrough.

(** * Text lemmas *)

Module Text.

Lemma app_assoc (a b c : string) : (a ++ b) ++ c = a ++ (b ++ c).
Proof.
  induction a as [| x a IH]; simpl; [reflexivity | now rewrite IH].
Qed.

Lemma app_nil_r (a : string) : a ++ "" = a.
Proof.
  induction a as [| x a IH]; simpl; [reflexivity | now rewrite IH].
Qed.

Lemma app_length (a b : string) :
  String.length (a ++ b) = (String.length a + String.length b)%nat.
Proof.
  induction a as [| x a IH]; simpl; [reflexivity | now rewrite IH].
Qed.

Lemma app_inv_head (a x y : string) : a ++ x = a ++ y -> x = y.
Proof.
  induction a as [| c a IH]; simpl; intros H; [exact H |].
  injection H as H. now apply IH.
Qed.

(** Two texts of the same length followed by equal wholes are equal. *)
Lemma app_inv_length (a b x y : string) :
  String.length a = String.length b -> a ++ x = b ++ y -> a = b /\ x = y.
Proof.
  revert b. induction a as [| c a IH]; intros [| d b]; simpl; intros Hlen H;
    try discriminate.
  - now split.
  - injection H as -> H. injection Hlen as Hlen.
    destruct (IH b Hlen H) as [-> ->]. now split.
Qed.

Lemma app_inv_tail (a b x : string) : a ++ x = b ++ x -> a = b.
Proof.
  intros H. apply (app_inv_length a b x x); [| exact H].
  apply (f_equal String.length) in H. rewrite !app_length in H. lia.
Qed.

Lemma prefix_app (a b : string) : String.prefix a (a ++ b) = true.
Proof.
  induction a as [| c a IH]; simpl.
  - now destruct b.
  - destruct (ascii_dec c c) as [_ | Hne]; [exact IH | contradiction].
Qed.

End Text.

(** * Properties of the sequence builder *)

Module Builder.

Import SequenceBuilder Spec.

(** [delay || 10] is the wait of an [IDLE] step. *)
Lemma or_default_idleWait (d : JS.number) :
  JS.or d (JS.Num 10) = idleWait d.
Proof.
  destruct d as [| z | b]; [reflexivity | | reflexivity].
  unfold JS.or, idleWait; simpl. now destruct (z =? 0).
Qed.

(** One round of the callback appends the block of the step. *)
Lemma emitStep_block (code : string) (s : SequenceStep) (index : nat) :
  emitStep code s index = code ++ block (Z.of_nat index + 1) s.
Proof.
  unfold emitStep, block, stepComment, stepMarker, transactionLines, postWait,
    waitLine, createLines, addrConstraint, kindConstraint, dataConstraint,
    dispatchLines.
  rewrite or_default_idleWait.
  destruct (isIDLE (kind s)), (isWRITE (kind s)), (JS.gt0 (delay s));
    rewrite ?Text.app_assoc; reflexivity.
Qed.

Lemma forEach_blocks (l : list SequenceStep) :
  forall (index : nat) (code : string),
    forEach emitStep l index code = code ++ blocks (Z.of_nat index + 1) l.
Proof.
  induction l as [| s r IH]; intros index code; simpl.
  - now rewrite Text.app_nil_r.
  - rewrite IH, emitStep_block, Text.app_assoc.
    now replace (Z.of_nat (S index) + 1) with (Z.of_nat index + 1 + 1) by lia.
Qed.

(** The accumulating loop of [generateCode] prints the skeleton of the
    contract. *)
Lemma generateCode_compile (l : list SequenceStep) :
  generateCode l = compile l.
Proof.
  unfold generateCode, compile. rewrite forEach_blocks.
  destruct l as [| s r].
  - reflexivity.
  - cbn [List.length Nat.eqb]. rewrite !Text.app_assoc. reflexivity.
Qed.

Lemma blocks_app (pre post : list SequenceStep) :
  forall position,
    blocks position (pre ++ post)%list =
    blocks position pre ++ blocks (position + Z.of_nat (List.length pre)) post.
Proof.
  induction pre as [| s r IH]; intros position; simpl List.app.
  - cbn [blocks List.length Z.of_nat]. now rewrite Z.add_0_r.
  - cbn [blocks]. rewrite IH, Text.app_assoc.
    now replace (position + 1 + Z.of_nat (List.length r))
      with (position + Z.of_nat (List.length (s :: r)))
      by (cbn [List.length]; lia).
Qed.

(** The text of a list around one of its steps. *)
Lemma generateCode_at (pre post : list SequenceStep) (s : SequenceStep) :
  generateCode (pre ++ s :: post)%list =
  preamble
  ++ blocks 1 pre
  ++ block (Z.of_nat (List.length pre) + 1) s
  ++ blocks (Z.of_nat (List.length pre) + 2) post
  ++ closing.
Proof.
  rewrite generateCode_compile. unfold compile.
  replace (match (pre ++ s :: post)%list with
           | [] => placeholder
           | _ :: _ => blocks 1 (pre ++ s :: post)%list
           end)
    with (blocks 1 (pre ++ s :: post)%list) by (now destruct pre).
  rewrite blocks_app. cbn [blocks].
  rewrite !Text.app_assoc.
  replace (1 + Z.of_nat (List.length pre)) with (Z.of_nat (List.length pre) + 1) by lia.
  now replace (Z.of_nat (List.length pre) + 1 + 1) with (Z.of_nat (List.length pre) + 2) by lia.
Qed.



(** C4: an [IDLE] step at any place of any list is printed, at that place,
    as its numbered comment, a single wait line and a blank line; the wait
    is the step's delay, except that a delay of zero (or [NaN], the other
    falsy number) prints the fixed default [10], never [0]. *)
Theorem idle_block (pre post : list SequenceStep) (s : SequenceStep) :
  kind s = IDLE ->
  (exists wait,
     generateCode (pre ++ s :: post)%list =
       preamble
       ++ blocks 1 pre
       ++ (stepComment (Z.of_nat (List.length pre) + 1) IDLE
           ++ waitLine wait
           ++ nl)
       ++ blocks (Z.of_nat (List.length pre) + 2) post
       ++ closing
     /\ (delay s = JS.Num 0 \/ delay s = JS.NaN -> wait = DEFAULT_WAIT)
     /\ (forall z, delay s = JS.Num z -> z <> 0 -> wait = JS.Num z))
  /\ DEFAULT_WAIT = JS.Num 10
  /\ waitLine DEFAULT_WAIT = "    #10;" ++ nl.
Proof.
  intros Hkind. split; [| split; reflexivity].
  exists (idleWait (delay s)). split; [| split].
  - rewrite generateCode_at. unfold block. rewrite Hkind. cbn [isIDLE].
    rewrite !Text.app_assoc. reflexivity.
  - intros [-> | ->]; reflexivity.
  - intros z -> Hz. unfold idleWait.
    destruct (Z.eqb_spec z 0); [contradiction | reflexivity].
Qed.

(** The scenario of the contract: one [IDLE] step with no delay. *)
Lemma idle_block_witness :
  let s := {| id := "1700000000000"; kind := IDLE; addr := "'h1000";
              data := "'hFF"; delay := JS.Num 0 |} in
  kind s = IDLE /\
  generateCode [s] =
    preamble ++ (stepComment 1 IDLE ++ ("    #10;" ++ nl) ++ nl) ++ closing.
Proof.
  intros s. split; [reflexivity |].
  destruct (proj1 (idle_block [] [] s eq_refl)) as (wait & Hcode & Hzero & _).
  rewrite (Hzero (or_introl eq_refl)) in Hcode. exact Hcode.
Defined.

Lemma filter_all {A : Type} (f : A -> bool) (l : list A) :
  (forall x, In x l -> f x = true) -> filter f l = l.
Proof.
  induction l as [| x r IH]; intros Hall; simpl; [reflexivity |].
  rewrite (Hall x (or_introl eq_refl)), IH; [reflexivity |].
  intros y Hy. apply Hall. now right.
Qed.

(** C8: removing an id that no step of the list carries leaves the list as
    it is, hence the compiled text too; with the displayed text in step
    with the list, the whole state after the removal and its effect is the
    state before. *)
Theorem removeStep_absent (i : string) (st : State) :
  (forall s, In s (steps st) -> id s <> i) ->
  steps (removeStep i st) = steps st /\
  generateCode (steps (removeStep i st)) = generateCode (steps st) /\
  (generatedCode st = generateCode (steps st) -> handle (RemoveStep i) st = st).
Proof.
  intros Habsent.
  assert (Hsame : steps (removeStep i st) = steps st).
  { unfold removeStep; simpl. apply filter_all. intros s Hs.
    apply negb_true_iff, String.eqb_neq. now apply Habsent. }
  split; [exact Hsame |]. split; [now rewrite Hsame |].
  intros Hsync. destruct st as [l cur code].
  unfold handle, effect, removeStep, setSteps, setGeneratedCode in *.
  simpl in *. now rewrite Hsame, <- Hsync.
Qed.

Lemma removeStep_absent_witness :
  let st := handle (AddStep 1700000000001) (handle (AddStep 1700000000000) initial) in
  List.length (steps st) = 2%nat /\
  steps (removeStep "42" st) = steps st /\
  handle (RemoveStep "42") st = st.
Proof.
  intros st.
  assert (Habsent : forall s, In s (steps st) -> id s <> "42").
  { intros s [<- | [<- | []]]; discriminate. }
  split; [reflexivity |].
  destruct (removeStep_absent "42" st Habsent) as (Hsteps & _ & Hstate).
  split; [exact Hsteps | exact (Hstate eq_refl)].
Defined.

(** C9: the text of the empty list is the preamble, the placeholder comment
    line and the closing text, and nothing else: it holds the placeholder
    and no per-step block (each of which starts with the step marker). *)
Theorem generateCode_empty :
  generateCode [] = preamble ++ placeholder ++ closing /\
  occurs placeholder (generateCode []) = true /\
  occurs stepMarker (generateCode []) = false /\
  (forall position s, String.prefix stepMarker (block position s) = true).
Proof.
  split; [reflexivity |]. split; [reflexivity |]. split; [reflexivity |].
  intros position s. unfold block, stepComment.
  rewrite Text.app_assoc. apply Text.prefix_app.
Qed.

(** *** The pending form *)

Lemma or_string_nonempty (a : option string) (b : string) :
  b <> "" -> JS.or_string a b <> "".
Proof.
  intros Hb. destruct a as [[| c r] |]; simpl; [exact Hb | discriminate | exact Hb].
Qed.

Lemma newStep_filled (now : Z) (cur : Partial.t) :
  addr (newStep now cur) <> "" /\ data (newStep now cur) <> "".
Proof.
  split; apply or_string_nonempty; discriminate.
Qed.

Lemma handle_filled (e : Event) (st : State) :
  filled (steps st) -> filled (steps (handle e st)).
Proof.
  intros Hst. destruct e; simpl; try exact Hst.
  - intros s Hs. apply in_app_or in Hs. destruct Hs as [Hs | [<- | []]].
    + now apply Hst.
    + apply newStep_filled.
  - intros s Hs. apply filter_In in Hs. now apply Hst.
  - intros s [].
Qed.

Lemma run_filled (es : list Event) :
  forall st, filled (steps st) -> filled (steps (run es st)).
Proof.
  unfold run. induction es as [| e r IH]; intros st Hst; simpl.
  - exact Hst.
  - apply IH. now apply handle_filled.
Qed.

(** C10: [addStep] appends one step built from the pending form: an empty
    or missing [addr] or [data] becomes the text ["0"] and any other text
    is kept, a missing [kind] becomes [WRITE], a missing or falsy [delay]
    ([0] or [NaN]) becomes [0]; so the appended step, and every step of
    every list the component can reach, has non-empty [addr] and [data]. *)
Theorem addStep_defaults (now : Z) (st : State) :
  let cur := currentStep st in
  let s := newStep now cur in
  steps (addStep now st) = (steps st ++ [s])%list /\
  (Partial.addr cur = Some "" \/ Partial.addr cur = None -> addr s = "0") /\
  (forall a, Partial.addr cur = Some a -> a <> "" -> addr s = a) /\
  (Partial.data cur = Some "" \/ Partial.data cur = None -> data s = "0") /\
  (forall d, Partial.data cur = Some d -> d <> "" -> data s = d) /\
  (Partial.kind cur = None -> kind s = WRITE) /\
  (forall k, Partial.kind cur = Some k -> kind s = k) /\
  (Partial.delay cur = Some (JS.Num 0) \/ Partial.delay cur = Some JS.NaN \/
   Partial.delay cur = None -> delay s = JS.Num 0) /\
  (forall z, Partial.delay cur = Some (JS.Num z) -> delay s = JS.Num z) /\
  (addr s <> "" /\ data s <> "") /\
  (forall es x, In x (steps (run es initial)) -> addr x <> "" /\ data x <> "").
Proof.
  intros cur s. subst s. unfold newStep; simpl.
  split; [reflexivity |].
  split; [intros [-> | ->]; reflexivity |].
  split; [intros a -> Ha; destruct a; [contradiction | reflexivity] |].
  split; [intros [-> | ->]; reflexivity |].
  split; [intros d -> Hd; destruct d; [contradiction | reflexivity] |].
  split; [intros ->; reflexivity |].
  split; [intros k ->; reflexivity |].
  split; [intros [-> | [-> | ->]]; reflexivity |].
  split.
  { intros z ->. unfold JS.or_undef, JS.or; simpl.
    destruct (Z.eqb_spec z 0) as [-> | _]; reflexivity. }
  split; [apply (newStep_filled now cur) |].
  intros es x Hx. apply (run_filled es initial); [| exact Hx].
  intros y [].
Qed.

(** The form with [addr] and [data] erased and a delay that does not
    parse. *)
Lemma addStep_defaults_witness :
  let st := run [ChangeAddr ""; ChangeData ""; ChangeDelay "abc"] initial in
  let s := newStep 1700000000000 (currentStep st) in
  Partial.addr (currentStep st) = Some "" /\
  Partial.data (currentStep st) = Some "" /\
  Partial.delay (currentStep st) = Some (JS.Num 0) /\
  addr s = "0" /\ data s = "0" /\ delay s = JS.Num 0 /\
  steps (handle (AddStep 1700000000000) st) = [s].
Proof.
  intros st s.
  destruct (addStep_defaults 1700000000000 st)
    as (Hsteps & Haddr & _ & Hdata & _ & _ & _ & Hdelay & _).
  split; [reflexivity |]. split; [reflexivity |]. split; [reflexivity |].
  split; [exact (Haddr (or_introl eq_refl)) |].
  split; [exact (Hdata (or_introl eq_refl)) |].
  split; [exact (Hdelay (or_introl eq_refl)) |].
  exact Hsteps.
Defined.

(** *** The delay field *)

Lemma digitValue_bound (c : ascii) (v : Z) :
  JS.digitValue c = Some v -> 0 <= v.
Proof.
  unfold JS.digitValue.
  repeat match goal with
         | |- context [?a <=? ?b] => destruct (Z.leb_spec a b)
         end; simpl; intros Hv; inversion Hv; lia.
Qed.

Lemma takeDigits_bound (R : Z) (s : string) :
  Forall (fun d => 0 <= d < R) (JS.takeDigits R s) /\
  (List.length (JS.takeDigits R s) <= String.length s)%nat.
Proof.
  induction s as [| c r [IH Hlen]]; simpl; [split; [constructor | simpl; lia] |].
  destruct (JS.digitValue c) as [v |] eqn:Hv; [| split; [constructor | simpl; lia]].
  destruct (Z.ltb_spec v R); [| split; [constructor | simpl; lia]].
  split; [| simpl; lia].
  constructor; [| exact IH]. split; [now apply digitValue_bound with c | assumption].
Qed.

(** The digits of a radix denote less than the radix to their number. *)
Lemma mathInt_bound (R : Z) (ds : list Z) :
  0 < R -> Forall (fun d => 0 <= d < R) ds ->
  0 <= JS.mathInt R ds < R ^ Z.of_nat (List.length ds).
Proof.
  intros HR. unfold JS.mathInt.
  assert (Hgen : forall acc, 0 <= acc -> Forall (fun d => 0 <= d < R) ds ->
            0 <= fold_left (fun a d => a * R + d) ds acc
              < (acc + 1) * R ^ Z.of_nat (List.length ds)).
  { induction ds as [| d r IH]; intros acc Hacc Hall.
    - simpl. lia.
    - inversion Hall as [| d' r' Hd Hr]; subst. cbv beta in Hd.
      cbn [fold_left List.length]. rewrite Nat2Z.inj_succ, Z.pow_succ_r by lia.
      specialize (IH (acc * R + d) ltac:(nia) Hr).
      pose proof (Z.pow_pos_nonneg R (Z.of_nat (List.length r)) HR ltac:(lia)) as Hpow.
      split; [lia |]. nia. }
  intros Hall. specialize (Hgen 0 ltac:(lia) Hall). lia.
Qed.

Lemma splitRadix_bound (s : string) :
  (fst (JS.splitRadix s) = 10 \/ fst (JS.splitRadix s) = 16) /\
  (String.length (snd (JS.splitRadix s)) <= String.length s)%nat.
Proof.
  unfold JS.splitRadix.
  repeat match goal with
         | |- context [match ?x with _ => _ end] => destruct x
         end; simpl; split; auto; lia.
Qed.

Lemma splitSign_bound (s : string) :
  (fst (JS.splitSign s) = 1 \/ fst (JS.splitSign s) = -1) /\
  (String.length (snd (JS.splitSign s)) <= String.length s)%nat.
Proof.
  unfold JS.splitSign.
  repeat match goal with
         | |- context [match ?x with _ => _ end] => destruct x
         end; simpl; split; auto; lia.
Qed.

Lemma trimStart_length (s : string) :
  (String.length (JS.trimStart s) <= String.length s)%nat.
Proof.
  assert (Hgen : forall n s, (String.length s <= n)%nat ->
                 (String.length (JS.trimStart s) <= String.length s)%nat).
  { clear s. induction n as [| n IH]; intros s Hs.
    - destruct s; [simpl; lia | simpl in Hs; lia].
    - destruct s as [| c r]; [simpl; lia |]. cbn [JS.trimStart].
      simpl in Hs.
      destruct (JS.isWhiteSpace c).
      + specialize (IH r ltac:(lia)). simpl. lia.
      + repeat match goal with
               | |- context [match ?x with _ => _ end] => destruct x
               | |- context [if ?x then _ else _] => destruct x
               end;
          try (simpl; lia);
          match goal with
          | |- (String.length (JS.trimStart ?t) <= _)%nat =>
              specialize (IH t ltac:(simpl in *; lia)); simpl in *; lia
          end. }
  now apply (Hgen (String.length s)).
Qed.

(** *** Rounding to a double *)

Lemma toDouble_not_NaN (z : Z) : JS.toDouble z <> JS.NaN.
Proof.
  unfold JS.toDouble. cbv zeta.
  match goal with |- (if ?c then _ else _) <> _ => destruct c end; discriminate.
Qed.

(** Below [2^53] in size every integer is a double. *)
Lemma toDouble_exact (z : Z) :
  Z.abs z < 9007199254740992 -> JS.toDouble z = JS.Num z.
Proof.
  intros Hz. unfold JS.toDouble. cbv zeta.
  change (2 ^ 53) with 9007199254740992.
  destruct (Z.ltb_spec (Z.abs z) 9007199254740992) as [_ | Hge]; [| lia].
  assert (Hbig : 9007199254740992 < 2 ^ 1024) by reflexivity.
  destruct (Z.ltb_spec (Z.abs z) (2 ^ 1024)) as [_ | Hge]; [| lia].
  f_equal. lia.
Qed.

(** Rounding keeps the sign. *)
Lemma toDouble_nonneg (z : Z) :
  0 <= z ->
  JS.toDouble z = JS.Infinity false \/
  exists z', JS.toDouble z = JS.Num z' /\ 0 <= z'.
Proof.
  intros Hz. unfold JS.toDouble. cbv zeta.
  set (a := Z.abs z). set (e := Z.log2 a - 52).
  match goal with
  | |- context [if ?c then a / 2 ^ e + 1 else a / 2 ^ e] =>
      set (q' := if c then a / 2 ^ e + 1 else a / 2 ^ e)
  end.
  assert (Ha : 0 <= a) by apply Z.abs_nonneg.
  assert (Hp : 0 <= 2 ^ e) by (apply Z.pow_nonneg; lia).
  assert (Hq : 0 <= a / 2 ^ e)
    by (destruct (Z.eq_dec (2 ^ e) 0) as [-> | Hne];
        [now rewrite Z.div_0_r | apply Z.div_pos; lia]).
  assert (Hq' : 0 <= q')
    by (subst q'; match goal with |- context [if ?c then _ else _] => destruct c end; lia).
  assert (Hv : 0 <= (if a <? 2 ^ 53 then a else q' * 2 ^ e))
    by (destruct (a <? 2 ^ 53); [exact Ha | now apply Z.mul_nonneg_nonneg]).
  destruct (_ <? 2 ^ 1024).
  - right. eexists. split; [reflexivity |].
    apply Z.mul_nonneg_nonneg; [| exact Hv]. now apply Z.sgn_nonneg.
  - left. f_equal. apply Z.ltb_ge. exact Hz.
Qed.

(** Below [2^1023] in size an integer rounds to a double, not to an
    infinity. *)
Lemma toDouble_finite (z : Z) :
  Z.abs z < 2 ^ 1023 -> exists z', JS.toDouble z = JS.Num z'.
Proof.
  intros Hz. unfold JS.toDouble. cbv zeta.
  set (a := Z.abs z) in *. set (e := Z.log2 a - 52).
  match goal with
  | |- context [if ?c then a / 2 ^ e + 1 else a / 2 ^ e] =>
      set (q' := if c then a / 2 ^ e + 1 else a / 2 ^ e)
  end.
  assert (Hv : (if a <? 2 ^ 53 then a else q' * 2 ^ e) < 2 ^ 1024).
  { assert (H1023 : 2 ^ 1023 < 2 ^ 1024) by reflexivity.
    destruct (Z.ltb_spec a (2 ^ 53)) as [Hlt | Hge]; [lia |].
    assert (Hpos : 0 < a) by (assert (0 < 2 ^ 53) by reflexivity; lia).
    pose proof (Z.log2_spec a Hpos) as [Hlo Hhi].
    assert (HL : 53 <= Z.log2 a < 1023).
    { split.
      - apply Z.log2_le_pow2; [exact Hpos | exact Hge].
      - apply Z.log2_lt_pow2; [exact Hpos | exact Hz]. }
    assert (He : 1 <= e <= 970) by (subst e; lia).
    assert (Hp : 0 < 2 ^ e) by (apply Z.pow_pos_nonneg; lia).
    assert (Hq : a / 2 ^ e < 2 ^ 53).
    { apply Z.div_lt_upper_bound; [exact Hp |].
      replace (2 ^ e * 2 ^ 53) with (2 ^ Z.succ (Z.log2 a)); [exact Hhi |].
      rewrite <- Z.pow_add_r by lia. f_equal. subst e. lia. }
    assert (Hq' : q' <= 2 ^ 53)
      by (subst q'; match goal with |- context [if ?c then _ else _] => destruct c end; lia).
    apply Z.le_lt_trans with (2 ^ 53 * 2 ^ e); [nia |].
    rewrite <- Z.pow_add_r by lia.
    apply Z.le_lt_trans with (2 ^ 1023); [| exact H1023].
    apply Z.pow_le_mono_r; lia. }
  apply Z.ltb_lt in Hv. rewrite Hv. eauto.
Qed.

(** What [parseInt] returns: the digits it reads, their radix and the
    sign. *)
Lemma parseInt_shape (text : string) :
  JS.parseInt text = JS.NaN \/
  exists sign R ds,
    JS.parseInt text = JS.toDouble (sign * JS.mathInt R ds) /\
    (sign = 1 \/ sign = -1) /\
    ((forall r, JS.trimStart text <> String "-" r) -> sign = 1) /\
    (R = 10 \/ R = 16) /\
    Forall (fun d => 0 <= d < R) ds /\
    (List.length ds <= String.length text)%nat.
Proof.
  unfold JS.parseInt.
  pose proof (trimStart_length text) as Htrim.
  pose proof (splitSign_bound (JS.trimStart text)) as [Hsign Hlen1].
  assert (Hone : (forall r, JS.trimStart text <> String "-" r) ->
                 fst (JS.splitSign (JS.trimStart text)) = 1).
  { intros Hminus. unfold JS.splitSign.
    destruct (JS.trimStart text) as [| c r]; [reflexivity |].
    destruct (Ascii.eqb_spec c "-") as [-> | Hc].
    - now destruct (Hminus r).
    - destruct c as [[] [] [] [] [] [] [] []]; try reflexivity. now destruct Hc. }
  destruct (JS.splitSign (JS.trimStart text)) as [sign s1]. cbn [fst snd] in *.
  pose proof (splitRadix_bound s1) as [HR Hlen2].
  destruct (JS.splitRadix s1) as [R s2]. cbn [fst snd] in *.
  pose proof (takeDigits_bound R s2) as [Hds Hlen3].
  destruct (JS.takeDigits R s2) as [| d ds] eqn:Hdigits; [now left |].
  right. exists sign, R, (d :: ds).
  split; [reflexivity |]. split; [exact Hsign |]. split; [exact Hone |].
  split; [exact HR |]. split; [exact Hds |]. lia.
Qed.

(** The claim of C2 as it is worded fails: a negative entry is stored as
    it is. *)
Lemma delay_entry_can_be_negative :
  Partial.delay (currentStep (onChangeDelay "-5" initial)) = Some (JS.Num (-5)) /\
  ~ (forall text st, exists z,
       Partial.delay (currentStep (onChangeDelay text st)) = Some (JS.Num z) /\
       0 <= z).
Proof.
  split; [reflexivity |].
  intros Hall. destruct (Hall "-5" initial) as (z & Hz & Hpos).
  assert (Hstored : Partial.delay (currentStep (onChangeDelay "-5" initial))
                    = Some (JS.Num (-5))) by reflexivity.
  rewrite Hstored in Hz. injection Hz as <-. lia.
Qed.

(** Nor is every entry stored as an integer: the digits of [10^309] are
    beyond the doubles. *)
Lemma delay_entry_can_be_infinite :
  Partial.delay
    (currentStep
       (onChangeDelay (String "1" (string_of_list_ascii (repeat "0"%char 309)))
          initial))
  = Some (JS.Infinity false).
Proof. now vm_compute. Qed.

(** C2, amended: whatever text is entered, the pending delay becomes a
    number, never [NaN] and never missing: the number that [parseInt]
    reads at the start of the text (the integer of its digits as a double,
    an infinity when that integer is beyond the doubles) and [0] when
    [parseInt] reads no digit.  For a text of at most 255 bytes the stored
    number is an integer.  It is not negative unless the text, after
    leading white space, starts with a minus sign. *)
Theorem delay_entry_is_number (text : string) (st : State) :
  exists d,
    Partial.delay (currentStep (onChangeDelay text st)) = Some d /\
    d <> JS.NaN /\
    (JS.parseInt text = JS.NaN -> d = JS.Num 0) /\
    (JS.parseInt text <> JS.NaN -> d = JS.parseInt text) /\
    ((String.length text <= 255)%nat -> exists z, d = JS.Num z) /\
    ((forall r, JS.trimStart text <> String "-" r) ->
       d = JS.Infinity false \/ exists z, d = JS.Num z /\ 0 <= z).
Proof.
  exists (JS.or (JS.parseInt text) (JS.Num 0)).
  split; [reflexivity |].
  assert (Hor : JS.parseInt text <> JS.NaN ->
                JS.or (JS.parseInt text) (JS.Num 0) = JS.parseInt text).
  { intros Hn. unfold JS.or. destruct (JS.parseInt text) as [| z | b]; cbn [JS.truthy].
    - contradiction.
    - now destruct (Z.eqb_spec z 0) as [-> |].
    - reflexivity. }
  assert (Hnan : JS.parseInt text = JS.NaN ->
                 JS.or (JS.parseInt text) (JS.Num 0) = JS.Num 0)
    by (now intros ->).
  split; [| split; [exact Hnan | split; [exact Hor |]]].
  - destruct (JS.parseInt text) as [| z | b] eqn:Hp;
      [rewrite Hnan by reflexivity | rewrite Hor by discriminate ..]; discriminate.
  - destruct (parseInt_shape text)
      as [Hp | (sign & R & ds & Hp & Hsign & Hone & HR & Hds & Hlen)].
    + rewrite (Hnan Hp). split; [eauto |].
      intros _. right. exists 0. split; [reflexivity | lia].
    + assert (Hdouble : JS.parseInt text <> JS.NaN)
        by (rewrite Hp; apply toDouble_not_NaN).
      rewrite (Hor Hdouble), Hp.
      pose proof (mathInt_bound R ds ltac:(lia) Hds) as Hm. split.
      * intros Hshort. apply toDouble_finite.
        assert (Habs : Z.abs (sign * JS.mathInt R ds) = JS.mathInt R ds)
          by (destruct Hsign as [-> | ->]; lia).
        rewrite Habs.
        apply Z.lt_le_trans with (16 ^ Z.of_nat (List.length ds)).
        -- apply Z.lt_le_trans with (R ^ Z.of_nat (List.length ds)); [lia |].
           apply Z.pow_le_mono_l. lia.
        -- apply Z.le_trans with (16 ^ 255);
             [apply Z.pow_le_mono_r; lia | now vm_compute].
      * intros Hminus. rewrite (Hone Hminus), Z.mul_1_l.
        apply toDouble_nonneg. lia.
Qed.

(** A delay with a unit, a negative delay after a no-break space, and a
    digit string beyond the doubles. *)
Lemma delay_entry_is_number_witness :
  let nbsp := String "194" (String "160" "") in
  Partial.delay (currentStep (onChangeDelay " 42ns" initial)) = Some (JS.Num 42) /\
  Partial.delay (currentStep (onChangeDelay (nbsp ++ "-5") initial))
    = Some (JS.Num (-5)) /\
  Partial.delay (currentStep (onChangeDelay "9007199254740993" initial))
    = Some (JS.Num 9007199254740992) /\
  (forall r, JS.trimStart " 42ns" <> String "-" r) /\
  exists d,
    Partial.delay (currentStep (onChangeDelay " 42ns" initial)) = Some d /\
    (exists z, d = JS.Num z) /\
    (d = JS.Infinity false \/ exists z, d = JS.Num z /\ 0 <= z).
Proof.
  intros nbsp.
  assert (Hsign : forall r, JS.trimStart " 42ns" <> String "-" r)
    by (intros r; discriminate).
  split; [reflexivity |]. split; [reflexivity |]. split; [reflexivity |].
  split; [exact Hsign |].
  destruct (delay_entry_is_number " 42ns" initial)
    as (d & Hd & _ & _ & _ & Hint & Hpos).
  exists d. split; [exact Hd |].
  split; [apply Hint; simpl; lia | exact (Hpos Hsign)].
Defined.

(** *** Order of the steps *)

Lemma singleLine_app (a b : string) :
  singleLine (a ++ b) = singleLine a && singleLine b.
Proof.
  induction a as [| c a IH]; simpl; [reflexivity |].
  now rewrite IH, andb_assoc.
Qed.

(** Two first lines followed by a line feed are read back unambiguously. *)
Lemma line_split (a b x y : string) :
  singleLine a = true -> singleLine b = true ->
  a ++ nl ++ x = b ++ nl ++ y -> a = b /\ x = y.
Proof.
  revert b. induction a as [| c a IH]; intros [| d b]; simpl; intros Ha Hb H.
  - injection H as H. now split.
  - injection H as Hc _. subst d. discriminate.
  - injection H as Hc _. subst c. discriminate.
  - injection H as -> H.
    apply andb_true_iff in Ha, Hb.
    destruct (IH b (proj2 Ha) (proj2 Hb) H) as [-> ->]. now split.
Qed.

(** The same for a constraint or wait line, closed by a semicolon. *)
Lemma semicolon_split (a b x y : string) :
  singleLine a = true -> singleLine b = true ->
  a ++ String ";" (String "010" x) = b ++ String ";" (String "010" y) ->
  a = b /\ x = y.
Proof.
  intros Ha Hb H.
  change (a ++ ";" ++ nl ++ x = b ++ ";" ++ nl ++ y) in H.
  rewrite <- (Text.app_assoc a), <- (Text.app_assoc b) in H.
  apply line_split in H; try (rewrite singleLine_app, ?Ha, ?Hb; reflexivity).
  destruct H as [H ->]. split; [| reflexivity].
  now apply Text.app_inv_tail in H.
Qed.

Lemma singleLine_uint (d : Decimal.uint) :
  singleLine (NilEmpty.string_of_uint d) = true.
Proof.
  induction d; simpl; auto.
Qed.

Lemma singleLine_toString (n : JS.number) : singleLine (JS.toString n) = true.
Proof.
  destruct n as [| z | []]; [reflexivity | | reflexivity ..].
  unfold JS.toString. destruct (Z.to_int z); simpl; apply singleLine_uint.
Qed.

(** Printing a number loses nothing. *)
Lemma toString_inj (m n : JS.number) : JS.toString m = JS.toString n -> m = n.
Proof.
  intros H.
  destruct m as [| a | []], n as [| b | []]; cbn [JS.toString] in H;
    try reflexivity; try discriminate H;
    apply (f_equal NilEmpty.int_of_string) in H;
    rewrite ?NilEmpty.isi in H; try discriminate H.
  injection H as H. apply DecimalZ.to_int_inj in H. now subst.
Qed.

(** A block is a function of what the template prints of its step. *)
Lemma block_rendered (position : Z) (A B : SequenceStep) :
  rendered A = rendered B -> block position A = block position B.
Proof.
  unfold rendered, block, transactionLines, postWait.
  destruct (kind A), (kind B); simpl;
    destruct (JS.gt0 (delay A)), (JS.gt0 (delay B));
    intros H; inversion H; subst; try reflexivity;
    repeat match goal with
           | E : _ = _ |- _ => rewrite E
           end; reflexivity.
Qed.

Ltac strip_literal H :=
  repeat (progress (injection H as H)).

(** Reads the literal text and then the line [a;] off both sides of [H],
    and replaces what was read in the goal. *)
Ltac read_line H :=
  strip_literal H;
  let E := fresh "E" in
  apply semicolon_split in H;
  [ destruct H as [E H]; try apply toString_inj in E; rewrite E
  | try assumption; apply singleLine_toString .. ].

(** A block with single-line fields, followed by anything, is read back
    unambiguously: what it prints of its step is determined by the text. *)
Lemma block_unique (position : Z) (A B : SequenceStep) (x y : string) :
  printsSingleLines A = true -> printsSingleLines B = true ->
  block position A ++ x = block position B ++ y -> rendered A = rendered B.
Proof.
  unfold printsSingleLines, rendered, block, stepComment, transactionLines,
    postWait, waitLine, createLines, addrConstraint, kindConstraint,
    dataConstraint, dispatchLines.
  intros HA HB H.
  destruct (kind A), (kind B), (JS.gt0 (delay A)), (JS.gt0 (delay B));
    apply andb_true_iff in HA, HB;
    destruct HA as [HaA HdA], HB as [HaB HdB];
    cbn [isIDLE isWRITE] in H;
    rewrite ?Text.app_assoc in H;
    do 2 apply Text.app_inv_head in H;
    simpl in H; try discriminate H;
    repeat (read_line H; simpl in H);
    try discriminate H; reflexivity.
Qed.

Lemma generateCode_pair (A B : SequenceStep) :
  generateCode [A; B] = preamble ++ block 1 A ++ block 2 B ++ closing.
Proof.
  rewrite generateCode_compile. unfold compile. cbn [blocks].
  rewrite Text.app_nil_r, Text.app_assoc. reflexivity.
Qed.

(** The claim of C1 as it is worded fails: two [IDLE] steps that differ in
    [id] and in [delay] (zero against the default) compile to the same
    text in both orders. *)
Lemma order_not_always_visible :
  let A := {| id := "1"; kind := IDLE; addr := "0"; data := "0";
              delay := JS.Num 0 |} in
  let B := {| id := "2"; kind := IDLE; addr := "0"; data := "0";
              delay := JS.Num 10 |} in
  (id A <> id B /\ delay A <> delay B /\
   generateCode [A; B] = generateCode [B; A]) /\
  ~ (forall X Y : SequenceStep,
       X <> Y -> generateCode [X; Y] <> generateCode [Y; X]).
Proof.
  intros A B.
  assert (Hsame : generateCode [A; B] = generateCode [B; A]) by reflexivity.
  split.
  - split; [discriminate |]. split; [discriminate | exact Hsame].
  - intros Hall. apply (Hall A B); [discriminate | exact Hsame].
Qed.

(** Why the printed fields must be single lines: an address that spells
    out the rest of a block and the start of the next one hides the
    order, although the two addresses differ. *)
Remark line_feed_hides_order :
  let B := {| id := "2"; kind := WRITE; addr := "1"; data := "0";
              delay := JS.Num 0 |} in
  let A := {| id := "1"; kind := WRITE;
              addr := "1;" ++ nl ++ kindConstraint WRITE ++ dataConstraint "0"
                      ++ dispatchLines ++ nl ++ stepComment 2 WRITE
                      ++ createLines ++ "      addr == 1";
              data := "0"; delay := JS.Num 0 |} in
  addr A <> addr B /\
  printsSingleLines A = false /\
  generateCode [A; B] = generateCode [B; A].
Proof.
  intros B A. split; [discriminate |]. split; reflexivity.
Qed.

(** C1, amended: for two steps whose printed address and data hold no line
    feed, the text of [[A, B]] differs from the text of [[B, A]] exactly
    when the two steps differ in what the template prints of them: the
    kind; for [READ] and [WRITE] the address and the wait line (the delay
    when it is positive); for [WRITE] the data; for [IDLE] the wait (the
    delay, or the default when the delay is falsy).  Steps that differ
    only in [id] or in fields not printed for their kind give the same
    text in both orders. *)
Theorem order_sensitive (A B : SequenceStep) :
  printsSingleLines A = true ->
  printsSingleLines B = true ->
  (rendered A <> rendered B -> generateCode [A; B] <> generateCode [B; A]) /\
  (rendered A = rendered B -> generateCode [A; B] = generateCode [B; A]).
Proof.
  intros HA HB. rewrite !generateCode_pair. split.
  - intros Hdiff Heq. apply Hdiff.
    apply Text.app_inv_head in Heq.
    exact (block_unique 1 A B _ _ HA HB Heq).
  - intros Hsame.
    now rewrite (block_rendered 1 A B Hsame), (block_rendered 2 A B Hsame).
Qed.

(** Two writes to the same address with different data. *)
Lemma order_sensitive_witness :
  let A := {| id := "1"; kind := WRITE; addr := "'h1000"; data := "'hFF";
              delay := JS.Num 0 |} in
  let B := {| id := "2"; kind := WRITE; addr := "'h1000"; data := "'h00";
              delay := JS.Num 0 |} in
  printsSingleLines A = true /\
  printsSingleLines B = true /\
  rendered A <> rendered B /\
  generateCode [A; B] <> generateCode [B; A].
Proof.
  intros A B.
  assert (Hdiff : rendered A <> rendered B) by discriminate.
  split; [reflexivity |]. split; [reflexivity |]. split; [exact Hdiff |].
  exact (proj1 (order_sensitive A B eq_refl eq_refl) Hdiff).
Defined.

End Builder.

(** * More properties of the walkthrough *)

Module WalkthroughMore.

Import App UvmDiagram.

(** The [id] of every step is its place in the list. *)
Lemma stepAt_id (i : Z) (s : SimulationStep) :
  stepAt i = Some s -> id s = i.
Proof.
  unfold stepAt. destruct (Z.ltb_spec i 0) as [| Hi]; [discriminate |].
  destruct (Z.le_gt_cases i 6) as [Hle | Hgt].
  - assert (Hcases : i = 0 \/ i = 1 \/ i = 2 \/ i = 3 \/ i = 4 \/ i = 5 \/ i = 6) by lia.
    repeat (destruct Hcases as [-> | Hcases]); try subst i;
      simpl; intros [= <-]; reflexivity.
  - intros Hs.
    assert (Hlen : (List.length WALKTHROUGH_STEPS <= Z.to_nat i)%nat) by (simpl; lia).
    apply nth_error_None in Hlen. congruence.
Qed.

Lemma simulationStep_on (st : State) :
  0 <= simulationStepIndex st ->
  componentAt (simulationStepIndex st) = Some (activeComponent st) ->
  exists s, simulationStep st = Some s /\
            id s = simulationStepIndex st /\
            component s = activeComponent st.
Proof.
  intros Hon Hact. unfold simulationStep.
  destruct (Z.leb_spec 0 (simulationStepIndex st)); [| lia].
  unfold componentAt in Hact.
  destruct (stepAt (simulationStepIndex st)) as [s |] eqn:Hs; [| discriminate].
  exists s. split; [reflexivity |]. split; [now apply stepAt_id |].
  simpl in Hact. congruence.
Qed.

(** An event keeps the view of a running walkthrough on the diagram. *)
Lemma event_keeps_view (e : Event) (st st' : State) :
  (0 <= simulationStepIndex st -> viewMode st = architecture) ->
  enabled e st = true -> handle e st = Some st' ->
  0 <= simulationStepIndex st' -> viewMode st' = architecture.
Proof.
  intros Hview Hen Hhandle.
  assert (Harch : (forall m, e <> ViewChange m) -> viewMode st = architecture).
  { intros Hm. destruct e as [ | n | | c | m]; simpl in Hen;
      try (destruct (viewMode st); [reflexivity | discriminate]).
    now destruct (Hm m). }
  destruct e as [ | [ | ] | | c | m]; simpl in Hhandle.
  - injection Hhandle as <-. intros _. simpl. apply Harch; discriminate.
  - unfold nextStep in Hhandle.
    destruct (simulationStepIndex st <? totalSteps - 1);
      [destruct (componentAt _) |]; inversion Hhandle; subst; simpl; intros _;
      apply Harch; discriminate.
  - unfold prevStep in Hhandle.
    destruct (0 <? simulationStepIndex st);
      [destruct (componentAt _) |]; inversion Hhandle; subst; simpl; intros _;
      apply Harch; discriminate.
  - injection Hhandle as <-. simpl. lia.
  - injection Hhandle as <-. intros _. unfold onClick.
    destruct (negb (isSimulating st)); simpl; apply Harch; discriminate.
  - injection Hhandle as <-. unfold handleViewChange.
    destruct m; [destruct (isSameComponent _ _) |]; simpl; lia.
Qed.

Lemma reachable_consistent (st : State) :
  reachable st ->
  consistent st /\ (0 <= simulationStepIndex st -> viewMode st = architecture).
Proof.
  induction 1 as [| e st st' Hreach [Hcons Hview] Hen Hhandle].
  - split; [apply Walkthrough.initial_consistent | simpl; lia].
  - split.
    + destruct (Walkthrough.handle_consistent e st Hcons) as (st1 & H1 & Hc1).
      congruence.
    + now apply (event_keeps_view e st st').
Qed.

(** X1: in every state the page can be brought to, either the walkthrough is
    off, the cursor is [-1] and the information panel gets no step, or the
    cursor is on one of the steps, the diagram is on screen, and the panel
    gets the step whose [id] is the cursor and whose component is the
    active one.  In such a state no event the page can deliver raises. *)
Theorem page_invariant (st : State) :
  reachable st ->
  ((simulationStepIndex st = -1 /\ simulationStep st = None) \/
   (0 <= simulationStepIndex st <= totalSteps - 1 /\
    viewMode st = architecture /\
    exists s, simulationStep st = Some s /\
              id s = simulationStepIndex st /\
              component s = activeComponent st)) /\
  (forall e, enabled e st = true -> exists st', handle e st = Some st' /\ reachable st').
Proof.
  intros Hreach. destruct (reachable_consistent st Hreach) as [Hcons Hview]. split.
  - destruct Hcons as [Hoff | [Hon Hact]].
    + left. split; [exact Hoff |]. unfold simulationStep. now rewrite Hoff.
    + right. unfold onStep in Hon. split; [exact Hon |].
      split; [apply Hview; lia |]. apply simulationStep_on; [lia | exact Hact].
  - intros e Hen.
    destruct (Walkthrough.handle_consistent e st Hcons) as (st' & Hhandle & _).
    exists st'. split; [exact Hhandle |]. now apply (reachable_step e st st').
Qed.

Lemma page_invariant_witness :
  let st := {| activeComponent := SEQUENCER; viewMode := architecture;
               simulationStepIndex := 1 |} in
  reachable st /\
  simulationStep st =
    Some {| id := 1; label := "Sequencer Arbitration"; component := SEQUENCER |} /\
  exists st', handle (Step Next) st = Some st' /\ reachable st'.
Proof.
  intros st.
  assert (Hreach : reachable st).
  { apply (reachable_step (Step Next) (setActiveComponent SEQUENCE
             (setSimulationStepIndex 0 initial)) st); [| reflexivity | reflexivity].
    apply (reachable_step Start initial); [constructor | reflexivity | reflexivity]. }
  split; [exact Hreach |]. split; [reflexivity |].
  exact (proj2 (page_invariant st Hreach) (Step Next) eq_refl).
Defined.

(** X2: on a step, the previous and the next button are disabled exactly when
    their handler would leave the state as it is; a button that is not
    disabled moves the cursor by one. *)
Theorem disabled_buttons_are_the_noops (st : State) :
  0 <= simulationStepIndex st <= totalSteps - 1 ->
  (nextDisabled st = true <-> nextStep st = Some st) /\
  (prevDisabled st = true <-> prevStep st = Some st) /\
  (nextDisabled st = false ->
   exists st', nextStep st = Some st' /\
               simulationStepIndex st' = simulationStepIndex st + 1) /\
  (prevDisabled st = false ->
   exists st', prevStep st = Some st' /\
               simulationStepIndex st' = simulationStepIndex st - 1).
Proof.
  intros Hon. unfold nextDisabled, prevDisabled.
  assert (Hnext : simulationStepIndex st <> totalSteps - 1 ->
                  exists st', nextStep st = Some st' /\
                              simulationStepIndex st' = simulationStepIndex st + 1).
  { intros Hne. destruct (Walkthrough.nextStep_moves st) as (c & _ & ->); [lia | lia |].
    eexists. split; reflexivity. }
  assert (Hprev : simulationStepIndex st <> 0 ->
                  exists st', prevStep st = Some st' /\
                              simulationStepIndex st' = simulationStepIndex st - 1).
  { intros Hne. destruct (Walkthrough.prevStep_moves st) as (c & _ & ->); [lia | lia |].
    eexists. split; reflexivity. }
  split; [| split; [| split]].
  - destruct (Z.eqb_spec (simulationStepIndex st) (totalSteps - 1)) as [Heq | Hne].
    + split; [intros _; apply Walkthrough.nextStep_at_end; lia | reflexivity].
    + split; [discriminate |]. intros Hsame.
      destruct (Hnext Hne) as (st' & Hst' & Hidx).
      rewrite Hsame in Hst'. injection Hst' as <-. lia.
  - destruct (Z.eqb_spec (simulationStepIndex st) 0) as [Heq | Hne].
    + split; [intros _; apply Walkthrough.prevStep_at_start; lia | reflexivity].
    + split; [discriminate |]. intros Hsame.
      destruct (Hprev Hne) as (st' & Hst' & Hidx).
      rewrite Hsame in Hst'. injection Hst' as <-. lia.
  - intros Hen. apply Hnext. now apply Z.eqb_neq.
  - intros Hen. apply Hprev. now apply Z.eqb_neq.
Qed.

Lemma disabled_buttons_are_the_noops_witness :
  let st := {| activeComponent := SCOREBOARD; viewMode := architecture;
               simulationStepIndex := 6 |} in
  0 <= simulationStepIndex st <= totalSteps - 1 /\
  nextDisabled st = true /\ nextStep st = Some st /\
  prevDisabled st = false /\
  exists st', prevStep st = Some st' /\ simulationStepIndex st' = 5.
Proof.
  intros st.
  assert (Hon : 0 <= simulationStepIndex st <= totalSteps - 1) by (simpl; lia).
  destruct (disabled_buttons_are_the_noops st Hon) as (Hnext & _ & _ & Hprev).
  split; [exact Hon |]. split; [reflexivity |].
  split; [exact (proj1 Hnext eq_refl) |]. split; [reflexivity |].
  exact (Hprev eq_refl).
Defined.

(** X3: with the active component on the cursor's step, [next()] followed by
    [prev()] gives back the state it started from, below the last step; so
    does [prev()] followed by [next()], above the first. *)
Theorem next_prev_round_trip (st : State) :
  componentAt (simulationStepIndex st) = Some (activeComponent st) ->
  (0 <= simulationStepIndex st < totalSteps - 1 ->
   exists st1, nextStep st = Some st1 /\ prevStep st1 = Some st) /\
  (0 < simulationStepIndex st <= totalSteps - 1 ->
   exists st1, prevStep st = Some st1 /\ nextStep st1 = Some st).
Proof.
  intros Hact. pose proof Walkthrough.totalSteps_eq as HN.
  destruct st as [a v i]. simpl in *. split; intros Hi.
  - destruct (Walkthrough.nextStep_moves {| activeComponent := a; viewMode := v;
                simulationStepIndex := i |}) as (c & _ & ->); simpl; [lia | lia |].
    eexists. split; [reflexivity |].
    unfold prevStep, setActiveComponent, setSimulationStepIndex; simpl.
    destruct (Z.ltb_spec 0 (i + 1)); [| lia].
    replace (i + 1 - 1) with i by lia. now rewrite Hact.
  - destruct (Walkthrough.prevStep_moves {| activeComponent := a; viewMode := v;
                simulationStepIndex := i |}) as (c & _ & ->); simpl; [lia | lia |].
    eexists. split; [reflexivity |].
    unfold nextStep, setActiveComponent, setSimulationStepIndex; simpl.
    replace (i - 1 <? 6) with true by (symmetry; apply Z.ltb_lt; lia).
    replace (i - 1 + 1) with i by lia. now rewrite Hact.
Qed.

Lemma next_prev_round_trip_witness :
  let st := {| activeComponent := DUT; viewMode := architecture;
               simulationStepIndex := 4 |} in
  componentAt (simulationStepIndex st) = Some (activeComponent st) /\
  (exists st1, nextStep st = Some st1 /\ prevStep st1 = Some st) /\
  (exists st1, prevStep st = Some st1 /\ nextStep st1 = Some st).
Proof.
  intros st.
  destruct (next_prev_round_trip st eq_refl) as [Hnp Hpn].
  split; [reflexivity |].
  split; [apply Hnp | apply Hpn]; simpl; lia.
Defined.

Lemma navs_app (a b : list Nav) :
  forall st, navs (a ++ b)%list st =
             match navs a st with Some st' => navs b st' | None => None end.
Proof.
  induction a as [| n r IH]; intros st; simpl; [reflexivity |].
  destruct (nav n st); [apply IH | reflexivity].
Qed.

(** X4: from a step [i], [n] calls of [next()] lead to the step
    [min (i + n) (N - 1)] and [n] calls of [prev()] to the step
    [max (i - n) 0], with the active component on that step. *)
Theorem repeated_steps_saturate (n : nat) (st : State) :
  0 <= simulationStepIndex st <= totalSteps - 1 ->
  componentAt (simulationStepIndex st) = Some (activeComponent st) ->
  (exists st', navs (repeat Next n) st = Some st' /\
     simulationStepIndex st' =
       Z.min (simulationStepIndex st + Z.of_nat n) (totalSteps - 1) /\
     componentAt (simulationStepIndex st') = Some (activeComponent st')) /\
  (exists st', navs (repeat Prev n) st = Some st' /\
     simulationStepIndex st' = Z.max (simulationStepIndex st - Z.of_nat n) 0 /\
     componentAt (simulationStepIndex st') = Some (activeComponent st')).
Proof.
  pose proof Walkthrough.totalSteps_eq as HN.
  revert st. induction n as [| n IH]; intros st Hon Hact.
  - split; exists st; (split; [reflexivity | split; [lia | exact Hact]]).
  - split; cbn [repeat navs nav].
    + destruct (Z.lt_ge_cases (simulationStepIndex st) (totalSteps - 1)) as [Hlt | Hge].
      * destruct (Walkthrough.nextStep_moves st Hlt) as (c & Hc & ->); [lia |].
        set (st1 := setActiveComponent c _).
        destruct (IH st1) as [(st' & Hrun & Hidx & Hcomp) _];
          [simpl; lia | exact Hc |].
        exists st'. split; [exact Hrun |]. split; [| exact Hcomp].
        rewrite Hidx. simpl. lia.
      * rewrite Walkthrough.nextStep_at_end by lia.
        destruct (IH st Hon Hact) as [(st' & Hrun & Hidx & Hcomp) _].
        exists st'. split; [exact Hrun |]. split; [| exact Hcomp]. lia.
    + destruct (Z.lt_ge_cases 0 (simulationStepIndex st)) as [Hgt | Hle].
      * destruct (Walkthrough.prevStep_moves st Hgt) as (c & Hc & ->); [lia |].
        set (st1 := setActiveComponent c _).
        destruct (IH st1) as [_ (st' & Hrun & Hidx & Hcomp)];
          [simpl; lia | exact Hc |].
        exists st'. split; [exact Hrun |]. split; [| exact Hcomp].
        rewrite Hidx. simpl. lia.
      * rewrite Walkthrough.prevStep_at_start by lia.
        destruct (IH st Hon Hact) as [_ (st' & Hrun & Hidx & Hcomp)].
        exists st'. split; [exact Hrun |]. split; [| exact Hcomp]. lia.
Qed.

(** After [start()], six calls of [next()] reach the last step, and more
    calls stay there. *)
Lemma repeated_steps_saturate_witness :
  let st := {| activeComponent := SEQUENCE; viewMode := architecture;
               simulationStepIndex := 0 |} in
  startSimulation initial = Some st /\
  navs (repeat Next 6) st =
    Some {| activeComponent := SCOREBOARD; viewMode := architecture;
            simulationStepIndex := 6 |} /\
  exists st', navs (repeat Next 9) st = Some st' /\ simulationStepIndex st' = 6.
Proof.
  intros st. split; [reflexivity |]. split; [reflexivity |].
  assert (Hon : 0 <= simulationStepIndex st <= totalSteps - 1) by (simpl; lia).
  destruct (proj1 (repeated_steps_saturate 9 st Hon eq_refl)) as (st' & Hrun & Hidx & _).
  exists st'. split; [exact Hrun | exact Hidx].
Defined.

(** X5: a change of view always switches the walkthrough off and is
    idempotent; the builder view makes [SEQUENCE] the active component,
    the architecture view never leaves it active, so going to the builder
    and back ends on [DRIVER] whatever was selected before. *)
Theorem view_change_resets (m : ViewMode) (st : State) :
  simulationStepIndex (handleViewChange m st) = -1 /\
  viewMode (handleViewChange m st) = m /\
  handleViewChange m (handleViewChange m st) = handleViewChange m st /\
  activeComponent (handleViewChange builder st) = SEQUENCE /\
  activeComponent (handleViewChange architecture st) <> SEQUENCE /\
  activeComponent (handleViewChange architecture (handleViewChange builder st)) = DRIVER.
Proof.
  destruct st as [a v i]. unfold handleViewChange; simpl.
  split; [destruct m; [destruct (isSameComponent a SEQUENCE) |]; reflexivity |].
  split; [destruct m; [destruct (isSameComponent a SEQUENCE) |]; reflexivity |].
  split; [destruct m, a; reflexivity |].
  split; [reflexivity |].
  split; [destruct a; simpl; discriminate | reflexivity].
Qed.


End WalkthroughMore.

(** * More properties of the sequence builder *)

Module BuilderMore.

Import SequenceBuilder Spec Clock.

Lemma blocks_numbered (l : list SequenceStep) :
  forall k : nat,
    blocks (Z.of_nat k + 1) l =
    String.concat ""
      (map (fun p => block (Z.of_nat (fst p) + 1) (snd p))
           (combine (seq k (List.length l)) l)).
Proof.
  induction l as [| s r IH]; intros k; [reflexivity |].
  cbn [blocks List.length seq combine map fst snd].
  replace (Z.of_nat k + 1 + 1) with (Z.of_nat (S k) + 1) by lia.
  rewrite IH. destruct r as [| s' r']; [apply Text.app_nil_r | reflexivity].
Qed.

(** X7: the text of a list is the preamble, then the placeholder line when the
    list is empty and otherwise the blocks of the steps, in the order of
    the list and numbered from 1, then the closing text. *)
Theorem generateCode_skeleton (l : list SequenceStep) :
  generateCode l =
    preamble
    ++ (if (List.length l =? 0)%nat
        then placeholder
        else String.concat ""
               (map (fun p => block (Z.of_nat (fst p) + 1) (snd p)) (numbered l)))
    ++ closing.
Proof.
  rewrite Builder.generateCode_compile. unfold compile, numbered.
  destruct l as [| s r]; [reflexivity |].
  now rewrite <- (blocks_numbered (s :: r) 0).
Qed.

Lemma blocks_rendered (l1 : list SequenceStep) :
  forall l2 position,
    map rendered l1 = map rendered l2 -> blocks position l1 = blocks position l2.
Proof.
  induction l1 as [| a r1 IH]; intros [| b r2] position H; try discriminate.
  - reflexivity.
  - simpl in H. injection H as Hab Hr. cbn [blocks].
    now rewrite (Builder.block_rendered position a b Hab), (IH r2 (position + 1) Hr).
Qed.

Lemma blocks_unique (l1 : list SequenceStep) :
  forall l2 position,
    Forall (fun s => printsSingleLines s = true) l1 ->
    Forall (fun s => printsSingleLines s = true) l2 ->
    blocks position l1 ++ closing = blocks position l2 ++ closing ->
    map rendered l1 = map rendered l2.
Proof.
  induction l1 as [| a r1 IH]; intros [| b r2] position H1 H2 H.
  - reflexivity.
  - cbn [blocks] in H. unfold block, stepComment in H.
    rewrite !Text.app_assoc in H. discriminate H.
  - cbn [blocks] in H. unfold block, stepComment in H.
    rewrite !Text.app_assoc in H. discriminate H.
  - cbn [blocks] in H. rewrite !Text.app_assoc in H.
    inversion H1 as [| ? ? Ha Hr1]; subst. inversion H2 as [| ? ? Hb Hr2]; subst.
    pose proof (Builder.block_unique position a b _ _ Ha Hb H) as Hab.
    rewrite (Builder.block_rendered position a b Hab) in H.
    apply Text.app_inv_head in H.
    cbn [map]. now rewrite Hab, (IH r2 (position + 1) Hr1 Hr2 H).
Qed.

(** X8: for lists whose printed addresses and data hold no line feed, the text
    says exactly what the template prints of each step, in order: two
    lists have the same text if and only if they have the same number of
    steps and print the same of each. *)
Theorem text_determines_rendered (l1 l2 : list SequenceStep) :
  Forall (fun s => printsSingleLines s = true) l1 ->
  Forall (fun s => printsSingleLines s = true) l2 ->
  (generateCode l1 = generateCode l2 <-> map rendered l1 = map rendered l2).
Proof.
  intros H1 H2. rewrite !Builder.generateCode_compile. unfold compile. split.
  - intros H. apply Text.app_inv_head in H.
    destruct l1 as [| a r1], l2 as [| b r2].
    + reflexivity.
    + cbn [blocks] in H. unfold block, stepComment in H.
      rewrite !Text.app_assoc in H. discriminate H.
    + cbn [blocks] in H. unfold block, stepComment in H.
      rewrite !Text.app_assoc in H. discriminate H.
    + now apply (blocks_unique (a :: r1) (b :: r2) 1).
  - intros H. destruct l1 as [| a r1], l2 as [| b r2]; try discriminate.
    + reflexivity.
    + now rewrite (blocks_rendered (a :: r1) (b :: r2) 1 H).
Qed.

Lemma text_determines_rendered_witness :
  let a := {| id := "1"; kind := READ; addr := "'h10"; data := "'hFF";
              delay := JS.Num 0 |} in
  let b := {| id := "2"; kind := READ; addr := "'h10"; data := "'h00";
              delay := JS.Num (-3) |} in
  let c := {| id := "3"; kind := IDLE; addr := ""; data := "";
              delay := JS.Num 10 |} in
  let d := {| id := "4"; kind := IDLE; addr := "'h10"; data := "'h00";
              delay := JS.NaN |} in
  map rendered [a; c] = map rendered [b; d] /\
  generateCode [a; c] = generateCode [b; d].
Proof.
  intros a b c d.
  assert (Hsame : map rendered [a; c] = map rendered [b; d]) by reflexivity.
  split; [exact Hsame |].
  apply (text_determines_rendered [a; c] [b; d]); [| | exact Hsame];
    repeat constructor.
Defined.

(** X9: adding a step leaves the text of the steps before it as it is and puts
    the block of the new step, numbered after them, before the closing
    text; on the empty list the block takes the place of the placeholder. *)
Theorem addStep_appends_block (now : Z) (st : State) :
  let s := newStep now (currentStep st) in
  let n := Z.of_nat (List.length (steps st)) in
  (steps st <> [] ->
   generateCode (steps st) = (preamble ++ blocks 1 (steps st)) ++ closing /\
   generateCode (steps (addStep now st)) =
     (preamble ++ blocks 1 (steps st)) ++ block (n + 1) s ++ closing) /\
  (steps st = [] ->
   generateCode (steps st) = preamble ++ placeholder ++ closing /\
   generateCode (steps (addStep now st)) = preamble ++ block 1 s ++ closing).
Proof.
  intros s n. subst s n. unfold addStep, setSteps. cbn [steps]. split.
  - intros Hne. split.
    + rewrite Builder.generateCode_compile. unfold compile.
      destruct (steps st); [contradiction | now rewrite Text.app_assoc].
    + change (steps st ++ [newStep now (currentStep st)])%list
        with (steps st ++ newStep now (currentStep st) :: [])%list.
      rewrite Builder.generateCode_at. cbn [blocks].
      now rewrite !Text.app_assoc.
  - intros ->. split; [reflexivity |].
    rewrite (Builder.generateCode_at [] []). cbn [blocks List.length Z.of_nat].
    reflexivity.
Qed.

Lemma addStep_appends_block_witness :
  let st := handle (AddStep 1700000000000) initial in
  steps st <> [] /\
  generateCode (steps (addStep 1700000000001 st)) =
    (preamble ++ blocks 1 (steps st))
    ++ block 2 (newStep 1700000000001 (currentStep st)) ++ closing.
Proof.
  intros st.
  assert (Hne : steps st <> []) by discriminate.
  split; [exact Hne |].
  exact (proj2 (proj1 (addStep_appends_block 1700000000001 st) Hne)).
Defined.

(** X10: the displayed text is always the text of the current list: no event
    of the component leaves the two out of step. *)
Theorem displayed_code_in_step (es : list Event) :
  generatedCode (run es initial) = generateCode (steps (run es initial)).
Proof.
  unfold run.
  assert (Hgen : forall st, generatedCode st = generateCode (steps st) ->
            generatedCode (fold_left (fun s e => handle e s) es st) =
            generateCode (steps (fold_left (fun s e => handle e s) es st))).
  { induction es as [| e r IH]; intros st Hst; simpl; [exact Hst |].
    apply IH. destruct e; simpl; try reflexivity; exact Hst. }
  apply Hgen. reflexivity.
Qed.

(** *** Removal and ids *)


Lemma filter_one_out (i : string) (l : list SequenceStep) :
  NoDup (map id l) -> (exists s, In s l /\ id s = i) ->
  (List.length (filter (fun s => negb (String.eqb (id s) i)) l) + 1
   = List.length l)%nat.
Proof.
  induction l as [| x r IH]; intros Hnd (s & Hs & Hid); [destruct Hs |].
  inversion Hnd as [| ? ? Hnotin Hnd']; subst. simpl.
  destruct (String.eqb_spec (id x) (id s)) as [Heq | Hne]; simpl.
  - rewrite Builder.filter_all; [lia |].
    intros y Hy. apply negb_true_iff, String.eqb_neq. intros Hy'.
    apply Hnotin. rewrite Heq, <- Hy'. now apply in_map.
  - destruct Hs as [-> | Hs]; [contradiction |].
    rewrite IH; [reflexivity | exact Hnd' | now exists s].
Qed.

(** The ids of a list built at times up to [last] are distinct and come
    from those times. *)
Lemma run_ids (es : list Event) :
  forall (last : Z) (st : State),
    increasing last es = true ->
    NoDup (map id (steps st)) ->
    (forall s, In s (steps st) -> exists t, t <= last /\ id s = JS.toString (JS.Num t)) ->
    NoDup (map id (steps (run es st))).
Proof.
  unfold run. induction es as [| e r IH]; intros last st Hinc Hnd Hold; simpl.
  - exact Hnd.
  - destruct e as [now | i | | k | v | v | v]; simpl in Hinc;
      try (apply (IH last); assumption).
    + apply andb_true_iff in Hinc. destruct Hinc as [Hlt Hinc].
      apply Z.ltb_lt in Hlt.
      apply (IH now); [exact Hinc | |]; simpl.
      * rewrite map_app. simpl. apply NoDup_app; [exact Hnd | repeat constructor; intros [] |].
        intros x Hx [Hnew | []]. apply in_map_iff in Hx.
        destruct Hx as (s & <- & Hs). destruct (Hold s Hs) as (t & Ht & Hid).
        rewrite Hid in Hnew.
        apply (Builder.toString_inj (JS.Num now) (JS.Num t)) in Hnew.
        injection Hnew as Hnew. lia.
      * intros s Hs. apply in_app_or in Hs. destruct Hs as [Hs | [<- | []]].
        -- destruct (Hold s Hs) as (t & Ht & Hid). exists t. split; [lia | exact Hid].
        -- exists now. split; [lia | reflexivity].
    + apply (IH last); [exact Hinc | |]; simpl.
      * clear - Hnd. induction (steps st) as [| x l IHl]; simpl; [constructor |].
        inversion Hnd as [| ? ? Hnotin Hnd']; subst.
        destruct (negb (id x =? i)%string); simpl; [| now apply IHl].
        constructor; [| now apply IHl].
        intros Hin. apply Hnotin. apply in_map_iff in Hin.
        destruct Hin as (y & Hy & Hin). apply filter_In in Hin.
        rewrite <- Hy. apply in_map. tauto.
      * intros s Hs. apply filter_In in Hs. now apply Hold.
    + apply (IH last); [exact Hinc | constructor | intros s []].
Qed.

(** X12: when every step is added at a later millisecond than the ones before,
    no two steps of the list share an id, and removing the id of a step of
    the list takes out that step alone. *)
Theorem ids_distinct_with_increasing_clock (es : list Event) (t0 : Z) :
  increasing t0 es = true ->
  NoDup (map id (steps (run es initial))) /\
  (forall s, In s (steps (run es initial)) ->
     (List.length (steps (removeStep (id s) (run es initial))) + 1
      = List.length (steps (run es initial)))%nat).
Proof.
  intros Hinc.
  assert (Hnd : NoDup (map id (steps (run es initial)))).
  { apply (run_ids es t0 initial Hinc); [constructor | intros s []]. }
  split; [exact Hnd |].
  intros s Hs. unfold removeStep; simpl. apply filter_one_out; [exact Hnd |].
  now exists s.
Qed.

Lemma ids_distinct_with_increasing_clock_witness :
  let es := [AddStep 1700000000000; ChangeAddr "'h2000"; AddStep 1700000000007;
             RemoveStep "1700000000000"; AddStep 1700000000009] in
  increasing 0 es = true /\
  map id (steps (run es initial)) = ["1700000000007"; "1700000000009"] /\
  NoDup (map id (steps (run es initial))).
Proof.
  intros es.
  split; [reflexivity |]. split; [reflexivity |].
  exact (proj1 (ids_distinct_with_increasing_clock es 0 eq_refl)).
Defined.

(** *** The delay field shows what it stores *)

Lemma takeDigits_uint_acc (d : Decimal.uint) :
  forall acc : positive,
    fold_left (fun a v => a * 10 + v)
      (JS.takeDigits 10 (NilEmpty.string_of_uint d)) (Z.pos acc)
    = Z.pos (Pos.of_uint_acc d acc).
Proof.
  induction d; intros acc; cbn [NilEmpty.string_of_uint Pos.of_uint_acc];
    [reflexivity | ..];
    match goal with
    | |- context [JS.takeDigits 10 (String ?c ?r)] =>
        let v := eval vm_compute in (JS.digitValue c) in
        match v with
        | Some ?k => change (JS.takeDigits 10 (String c r))
                       with (k :: JS.takeDigits 10 r)
        end
    end;
    cbn [fold_left]; rewrite <- IHd; f_equal; lia.
Qed.

Lemma takeDigits_uint (d : Decimal.uint) :
  JS.mathInt 10 (JS.takeDigits 10 (NilEmpty.string_of_uint d))
  = Z.of_N (Pos.of_uint d).
Proof.
  unfold JS.mathInt.
  induction d; cbn [NilEmpty.string_of_uint Pos.of_uint];
    [reflexivity | ..];
    match goal with
    | |- context [JS.takeDigits 10 (String ?c ?r)] =>
        let v := eval vm_compute in (JS.digitValue c) in
        match v with
        | Some ?k => change (JS.takeDigits 10 (String c r))
                       with (k :: JS.takeDigits 10 r)
        end
    end;
    cbn [fold_left];
    [exact IHd | ..];
    match goal with
    | |- fold_left _ _ (0 * 10 + ?k) = _ =>
        let p := eval vm_compute in (Z.to_pos k) in
        change (0 * 10 + k) with (Z.pos p)
    end;
    rewrite takeDigits_uint_acc; reflexivity.
Qed.

(** The prefix analysis of [parseInt] on a plain string of digits. *)
Lemma parse_prefix_uint (d : Decimal.uint) :
  d <> Decimal.Nil ->
  JS.trimStart (NilEmpty.string_of_uint d) = NilEmpty.string_of_uint d /\
  JS.trimStart (String "-" (NilEmpty.string_of_uint d))
  = String "-" (NilEmpty.string_of_uint d) /\
  JS.splitSign (NilEmpty.string_of_uint d) = (1, NilEmpty.string_of_uint d) /\
  JS.splitRadix (NilEmpty.string_of_uint d) = (10, NilEmpty.string_of_uint d) /\
  JS.takeDigits 10 (NilEmpty.string_of_uint d) <> [].
Proof.
  intros Hd. destruct d as [| d | d | d | d | d | d | d | d | d | d];
    try contradiction;
    (split; [reflexivity |]; split; [reflexivity |]; split; [reflexivity |];
     split; [| discriminate]);
    try reflexivity.
  destruct d; reflexivity.
Qed.

(** A string of decimal digits, with or without a minus sign in front, is
    read as the double nearest to the integer it writes. *)
Lemma parseInt_uint (d : Decimal.uint) :
  d <> Decimal.Nil ->
  JS.parseInt (NilEmpty.string_of_uint d)
  = JS.toDouble (Z.of_N (Pos.of_uint d)) /\
  JS.parseInt (String "-" (NilEmpty.string_of_uint d))
  = JS.toDouble (- Z.of_N (Pos.of_uint d)).
Proof.
  intros Hd.
  destruct (parse_prefix_uint d Hd) as (Htrim & Hminus & Hsign & Hradix & Hne).
  pose proof (takeDigits_uint d) as Hval.
  unfold JS.parseInt. split.
  - rewrite Htrim, Hsign, Hradix.
    destruct (JS.takeDigits 10 (NilEmpty.string_of_uint d)); [contradiction |].
    rewrite Hval. f_equal; lia.
  - rewrite Hminus. cbn [JS.splitSign]. rewrite Hradix.
    destruct (JS.takeDigits 10 (NilEmpty.string_of_uint d)); [contradiction |].
    rewrite Hval. f_equal; lia.
Qed.

(** Reading back the decimal text of an integer gives the double nearest to
    it: the integer itself when its size is below 2^53. *)
Lemma parseInt_toString (z : Z) :
  JS.parseInt (JS.toString (JS.Num z)) = JS.toDouble z.
Proof.
  destruct z as [| p | p]; [reflexivity | |]; unfold JS.toString; simpl Z.to_int;
    unfold NilEmpty.string_of_int;
    destruct (parseInt_uint (Pos.to_uint p) (DecimalPos.Unsigned.to_uint_nonnil p))
      as [Hpos Hneg];
    rewrite DecimalPos.Unsigned.of_to in Hpos, Hneg.
  - exact Hpos.
  - exact Hneg.
Qed.

Lemma entered_integer_is_stored (z : Z) :
  Z.abs z < 9007199254740992 ->
  JS.or (JS.parseInt (JS.toString (JS.Num z))) (JS.Num 0) = JS.Num z.
Proof.
  intros Hz. rewrite parseInt_toString, (Builder.toDouble_exact z Hz).
  unfold JS.or; simpl.
  now destruct (Z.eqb_spec z 0) as [-> |].
Qed.

(** What the delay handler stores is never [NaN]. *)
Lemma or_zero_not_NaN (n : JS.number) : JS.or n (JS.Num 0) <> JS.NaN.
Proof.
  unfold JS.or. destruct n as [| z | b]; cbn [JS.truthy]; try discriminate.
  destruct (negb (z =? 0)); discriminate.
Qed.

(** A number other than [NaN] passes through [|| 0] unchanged. *)
Lemma or_zero_fixed (n : JS.number) : n <> JS.NaN -> JS.or n (JS.Num 0) = n.
Proof.
  unfold JS.or. destruct n as [| z | b]; cbn [JS.truthy];
    [congruence | | reflexivity].
  intros _. now destruct (Z.eqb_spec z 0) as [-> |].
Qed.

(** In every state the component can reach, the pending delay is a number
    other than [NaN]. *)
Lemma pending_delay_is_number (es : list Event) :
  exists d,
    Partial.delay (currentStep (run es initial)) = Some d /\ d <> JS.NaN.
Proof.
  unfold run.
  assert (Hgen : forall st,
            (exists d, Partial.delay (currentStep st) = Some d /\ d <> JS.NaN) ->
            exists d,
              Partial.delay
                (currentStep (fold_left (fun s e => handle e s) es st))
              = Some d /\ d <> JS.NaN).
  { induction es as [| e r IH]; intros st Hst; simpl; [exact Hst |].
    apply IH. destruct e; try exact Hst.
    cbn [handle]. unfold onChangeDelay, setCurrentStep, withDelay.
    cbn [currentStep Partial.delay].
    eexists. split; [reflexivity | apply or_zero_not_NaN]. }
  apply Hgen. exists (JS.Num 0). split; [reflexivity | discriminate].
Qed.

(** X13: entering the decimal text of an integer of size below 2^53, negative
    or not, stores that integer; in every state the component can reach the
    pending delay is a number other than [NaN], and when it is an integer of
    size below 2^53, entering the text the field shows for it changes
    nothing. *)
Theorem delay_field_round_trip :
  (forall z st,
     Z.abs z < 9007199254740992 ->
     Partial.delay (currentStep (onChangeDelay (JS.toString (JS.Num z)) st))
     = Some (JS.Num z)) /\
  (forall es, exists d,
     Partial.delay (currentStep (run es initial)) = Some d /\
     d <> JS.NaN /\
     (forall z, d = JS.Num z -> Z.abs z < 9007199254740992 ->
        onChangeDelay (JS.toString d) (run es initial) = run es initial)).
Proof.
  split.
  - intros z st Hz. unfold onChangeDelay, setCurrentStep, withDelay.
    cbn [currentStep Partial.delay]. now rewrite entered_integer_is_stored.
  - intros es. destruct (pending_delay_is_number es) as (d & Hd & Hnan).
    exists d. split; [exact Hd |]. split; [exact Hnan |].
    intros z -> Hz.
    unfold onChangeDelay. rewrite (entered_integer_is_stored z Hz).
    destruct (run es initial) as [l cur code]. simpl in *.
    destruct cur as [i k a dt dl]. simpl in *. subst dl. reflexivity.
Qed.

Lemma delay_field_round_trip_witness :
  Partial.delay (currentStep (onChangeDelay "-42" initial)) = Some (JS.Num (-42)) /\
  onChangeDelay "0" initial = initial.
Proof.
  destruct delay_field_round_trip as [Hstore Hshow]. split.
  - apply (Hstore (-42) initial). simpl; lia.
  - destruct (Hshow []) as (d & Hd & _ & Hsame).
    injection Hd as <-. apply (Hsame 0); [reflexivity | simpl; lia].
Defined.

(** X14: in every state the component can reach the pending form has a kind,
    an address, a data text and a delay that is a number other than [NaN],
    so the step that [addStep] builds takes the kind and the delay of the
    form as they are, and no step of the list has the delay [NaN]. *)
Theorem form_always_complete (es : list Event) (now : Z) :
  (exists k a d n,
     currentStep (run es initial) =
       {| Partial.id := None; Partial.kind := Some k; Partial.addr := Some a;
          Partial.data := Some d; Partial.delay := Some n |} /\
     n <> JS.NaN /\
     kind (newStep now (currentStep (run es initial))) = k /\
     delay (newStep now (currentStep (run es initial))) = n) /\
  (forall s, In s (steps (run es initial)) -> delay s <> JS.NaN).
Proof.
  unfold run.
  assert (Hgen : forall st,
    ((exists k a d n,
        currentStep st =
          {| Partial.id := None; Partial.kind := Some k; Partial.addr := Some a;
             Partial.data := Some d; Partial.delay := Some n |} /\
        n <> JS.NaN) /\
     (forall s, In s (steps st) -> delay s <> JS.NaN)) ->
    (exists k a d n,
        currentStep (fold_left (fun s e => handle e s) es st) =
          {| Partial.id := None; Partial.kind := Some k; Partial.addr := Some a;
             Partial.data := Some d; Partial.delay := Some n |} /\
        n <> JS.NaN) /\
    (forall s, In s (steps (fold_left (fun s e => handle e s) es st)) ->
       delay s <> JS.NaN)).
  { induction es as [| e r IH]; intros st Hst; simpl; [exact Hst |].
    apply IH. destruct Hst as [(k & a & d & n & Hcur & Hn) Hsteps].
    destruct e as [t | i | | k' | v | v | v]; cbn [handle];
      unfold effect, addStep, removeStep, clearAll, onClickKind, onChangeAddr,
        onChangeData, onChangeDelay, setSteps, setCurrentStep, setGeneratedCode,
        withKind, withAddr, withData, withDelay;
      cbn [currentStep steps]; rewrite ?Hcur;
      cbn [Partial.id Partial.kind Partial.addr Partial.data Partial.delay].
    - split; [eauto 7 |]. intros s Hs. apply in_app_or in Hs.
      destruct Hs as [Hs | [<- | []]]; [now apply Hsteps |].
      unfold newStep. cbn [delay Partial.delay JS.or_undef].
      apply or_zero_not_NaN.
    - split; [eauto 7 |]. intros s Hs. apply filter_In in Hs. now apply Hsteps.
    - split; [eauto 7 |]. intros s [].
    - split; [eauto 7 | exact Hsteps].
    - split; [eauto 7 | exact Hsteps].
    - split; [eauto 7 | exact Hsteps].
    - split; [| exact Hsteps].
      do 4 eexists. split; [reflexivity | apply or_zero_not_NaN]. }
  destruct (Hgen initial) as [(k & a & d & n & Hcur & Hn) Hsteps].
  { split; [| intros s []].
    unfold initial; simpl. do 4 eexists. split; [reflexivity | discriminate]. }
  split; [| exact Hsteps].
  exists k, a, d, n. split; [exact Hcur |]. split; [exact Hn |].
  unfold newStep. rewrite Hcur; simpl. split; [reflexivity |].
  now apply or_zero_fixed.
Qed.

Lemma toString_negative (z : Z) :
  z < 0 -> exists digits, JS.toString (JS.Num z) = String "-" digits.
Proof.
  destruct z as [| p | p]; try lia. intros _.
  now exists (NilEmpty.string_of_uint (Pos.to_uint p)).
Qed.

(** X15: a negative delay of size below 2^53 typed into the field reaches the
    list as it is; the step added with it prints a negative wait when its
    kind is [IDLE] and no wait line at all when its kind is [READ] or
    [WRITE]. *)
Theorem negative_delay_reaches_the_text
    (z now : Z) (k : TransactionKind) (st : State) :
  -9007199254740992 < z < 0 ->
  let st' := run [ChangeDelay (JS.toString (JS.Num z)); ClickKind k; AddStep now] st in
  let position := Z.of_nat (List.length (steps st)) + 1 in
  exists s digits,
    steps st' = (steps st ++ [s])%list /\
    kind s = k /\ delay s = JS.Num z /\
    JS.toString (JS.Num z) = String "-" digits /\
    generatedCode st' =
      preamble
      ++ blocks 1 (steps st)
      ++ (stepComment position k
          ++ (if isIDLE k
              then ("    #-" ++ digits ++ ";" ++ nl)
              else transactionLines s)
          ++ nl)
      ++ closing.
Proof.
  intros Hz st' position. subst st' position.
  assert (Hneg : z < 0) by lia.
  assert (Hsafe : Z.abs z < 9007199254740992) by lia.
  destruct (toString_negative z Hneg) as (digits & Hdigits).
  unfold run. cbn [fold_left handle].
  assert (Hcur : exists cur,
            onClickKind k (onChangeDelay (JS.toString (JS.Num z)) st)
            = {| steps := steps st; currentStep := cur;
                 generatedCode := generatedCode st |} /\
            Partial.kind cur = Some k /\
            Partial.delay cur = Some (JS.Num z)).
  { eexists. split; [reflexivity |]. split; [reflexivity |].
    cbn [Partial.delay withKind withDelay currentStep setCurrentStep onChangeDelay].
    now rewrite entered_integer_is_stored. }
  destruct Hcur as (cur & -> & Hkind & Hdelay).
  unfold effect, addStep, setSteps, setGeneratedCode.
  cbn [generatedCode steps currentStep].
  exists (newStep now cur), digits.
  assert (Hk : kind (newStep now cur) = k)
    by (unfold newStep; cbn [kind]; now rewrite Hkind).
  assert (Hd : delay (newStep now cur) = JS.Num z).
  { unfold newStep; cbn [delay]. rewrite Hdelay. unfold JS.or_undef, JS.or.
    cbn [JS.truthy]. destruct (Z.eqb_spec z 0); [lia | reflexivity]. }
  split; [reflexivity |].
  split; [exact Hk |]. split; [exact Hd |]. split; [exact Hdigits |].
  change (steps st ++ [newStep now cur])%list
    with (steps st ++ newStep now cur :: [])%list.
  rewrite Builder.generateCode_at. cbn [blocks].
  unfold block, postWait, waitLine, idleWait. rewrite Hk, Hd.
  assert (Hgt : JS.gt0 (JS.Num z) = false)
    by (cbn [JS.gt0]; apply Z.ltb_ge; lia).
  rewrite Hgt.
  destruct (Z.eqb_spec z 0); [lia |]. rewrite ?Hdigits.
  destruct (isIDLE k); rewrite ?Text.app_assoc, ?Text.app_nil_r; reflexivity.
Qed.

Lemma negative_delay_reaches_the_text_witness :
  let st' := run [ChangeDelay "-5"; ClickKind IDLE; AddStep 1700000000000] initial in
  -9007199254740992 < -5 < 0 /\
  exists s,
    steps st' = [s] /\ delay s = JS.Num (-5) /\
    generatedCode st' =
      preamble ++ (stepComment 1 IDLE ++ ("    #-5;" ++ nl) ++ nl) ++ closing.
Proof.
  intros st'. split; [lia |].
  destruct (negative_delay_reaches_the_text (-5) 1700000000000 IDLE initial)
    as (s & digits & Hsteps & _ & Hdelay & Hdigits & Hcode); [lia |].
  exists s. split; [exact Hsteps |]. split; [exact Hdelay |].
  injection Hdigits as <-. exact Hcode.
Defined.

End BuilderMore.

(** * Properties of the tutor service *)

Module Tutor.

Import JSString GeminiService.

Lemma prefix_split (a s : string) :
  String.prefix a s = true -> s = a ++ drop (String.length a) s.
Proof.
  revert s. induction a as [| c a IH]; intros s H; [reflexivity |].
  destruct s as [| d s]; [discriminate |]. simpl in *.
  destruct (ascii_dec c d) as [-> |]; [| discriminate].
  now rewrite <- IH.
Qed.

Lemma drop_app (a r : string) : drop (String.length a) (a ++ r) = r.
Proof.
  induction a as [| c a IH]; [now destruct r | exact IH].
Qed.

(** A prefix of a text that is as long as the pattern decides the test. *)
Lemma prefix_within (a x z : string) :
  (String.length a <= String.length x)%nat ->
  String.prefix a (x ++ z) = String.prefix a x.
Proof.
  revert x. induction a as [| c a IH]; intros x Hlen.
  - now destruct x, z.
  - destruct x as [| d x]; [simpl in Hlen; lia |]. simpl.
    destruct (ascii_dec c d); [| reflexivity]. apply IH. simpl in Hlen. lia.
Qed.

Lemma prefix_app_l (a b s : string) :
  String.prefix (a ++ b) s = true -> String.prefix a s = true.
Proof.
  revert s. induction a as [| c a IH]; intros s H; [now destruct s |].
  destruct s as [| d s]; [discriminate |]. simpl in *.
  destruct (ascii_dec c d); [now apply IH | discriminate].
Qed.

(** A tag without backquote is not completed by a fence. *)
Lemma prefix_before_backquote (tag code z : string) :
  (forall a b, tag <> a ++ String "`" b) ->
  String.prefix tag (code ++ String "`" z) = String.prefix tag code.
Proof.
  revert code. induction tag as [| t tag IH]; intros code Htag.
  - now destruct code.
  - assert (Htail : forall a b, tag <> a ++ String "`" b).
    { intros a b ->. now apply (Htag (String t a) b). }
    destruct code as [| c code]; simpl.
    + destruct (ascii_dec t "`") as [-> |]; [| reflexivity].
      now destruct (Htag "" tag).
    + destruct (ascii_dec t c); [now apply IH | reflexivity].
Qed.

Lemma fenceFree_tail (c : ascii) (s : string) :
  fenceFree (String c s) -> fenceFree s.
Proof.
  intros H before after ->. now apply (H (String c before) after).
Qed.

Lemma fenceFree_no_prefix (x z : string) :
  fenceFree (x ++ "``") -> x <> "" -> String.prefix fence (x ++ "``" ++ z) = false.
Proof.
  intros Hfree Hx. destruct (String.prefix fence (x ++ "``" ++ z)) eqn:Hp; [| reflexivity].
  rewrite <- Text.app_assoc, prefix_within in Hp.
  - apply prefix_split in Hp. now destruct (Hfree "" (drop 3 (x ++ "``"))).
  - rewrite Text.app_length. destruct x; [contradiction | simpl; lia].
Qed.

(** The lazy group stops at the first fence. *)
Lemma lazyUntilFence_first (x y : string) :
  fenceFree (x ++ "``") -> lazyUntilFence (x ++ fence ++ y) = Some (x, y).
Proof.
  induction x as [| c x IH]; intros Hfree.
  - simpl. now destruct y.
  - pose proof (fenceFree_no_prefix (String c x) (String "`" y) Hfree) as Hp.
    change (String c x ++ "``" ++ String "`" y) with (String c x ++ fence ++ y) in Hp.
    cbn [append lazyUntilFence] in *. rewrite Hp by discriminate.
    rewrite IH; [reflexivity |]. now apply fenceFree_tail with c.
Qed.

Lemma lazyUntilFence_sound (s captured rest : string) :
  lazyUntilFence s = Some (captured, rest) -> s = captured ++ fence ++ rest.
Proof.
  revert captured. induction s as [| c s IH]; intros captured H; [discriminate |].
  cbn [lazyUntilFence] in H.
  destruct (String.prefix fence (String c s)) eqn:Hp.
  - injection H as <- <-. now apply prefix_split in Hp.
  - destruct (lazyUntilFence s) as [[cap r] |]; [| discriminate].
    injection H as <- <-. simpl. f_equal. now apply IH.
Qed.

Lemma alternative_sound (tag s w g : string) :
  alternative (fence ++ tag) s = Some (w, g) ->
  exists rest, s = fence ++ (tag ++ g) ++ fence ++ rest.
Proof.
  unfold alternative.
  destruct (String.prefix (fence ++ tag) s) eqn:Hp; [| discriminate].
  destruct (lazyUntilFence _) as [[cap rest] |] eqn:Hlazy; [| discriminate].
  intros [= <- <-]. exists rest.
  apply prefix_split in Hp. apply lazyUntilFence_sound in Hlazy.
  rewrite Hp at 1. rewrite Hlazy. now rewrite !Text.app_assoc.
Qed.

(** Without a fence that is closed by a later fence nothing matches. *)
Lemma regexMatch_none (text : string) :
  (forall a b c, text <> a ++ fence ++ b ++ fence ++ c) -> regexMatch text = None.
Proof.
  induction text as [| ch r IH]; intros Hopen; [reflexivity |].
  assert (Hhere : matchHere (String ch r) = None).
  { unfold matchHere.
    destruct (alternative "```systemverilog" (String ch r)) as [[w g] |] eqn:H1.
    { apply (alternative_sound "systemverilog") in H1. destruct H1 as (rest & H1).
      now destruct (Hopen "" ("systemverilog" ++ g) rest). }
    destruct (alternative "```verilog" (String ch r)) as [[w g] |] eqn:H2.
    { apply (alternative_sound "verilog") in H2. destruct H2 as (rest & H2).
      now destruct (Hopen "" ("verilog" ++ g) rest). }
    destruct (alternative "```" (String ch r)) as [[w g] |] eqn:H3; [| reflexivity].
    apply (alternative_sound "") in H3. destruct H3 as (rest & H3).
    now destruct (Hopen "" g rest). }
  cbn [regexMatch]. rewrite Hhere. apply IH.
  intros a b c ->. now apply (Hopen (String ch a) b c).
Qed.

Lemma lazyUntilFence_some (b c : string) : lazyUntilFence (b ++ fence ++ c) <> None.
Proof.
  induction b as [| y b IH].
  - simpl. now destruct c.
  - cbn [append lazyUntilFence].
    destruct (String.prefix fence _); [discriminate |].
    now destruct (lazyUntilFence (b ++ fence ++ c)) as [[cap r] |].
Qed.

Lemma regexMatch_here (s : string) (m : Match) :
  matchHere s = Some m -> regexMatch s = Some m.
Proof.
  intros H. destruct s; [discriminate H | cbn [regexMatch]; now rewrite H].
Qed.

(** A fence that is closed by a later fence always gives a match. *)
Lemma regexMatch_some (text a b c : string) :
  text = a ++ fence ++ b ++ fence ++ c -> regexMatch text <> None.
Proof.
  intros ->. induction a as [| x a IH].
  - assert (Hm : matchHere (fence ++ b ++ fence ++ c) <> None).
    { unfold matchHere.
      destruct (alternative "```systemverilog" _) as [[w g] |]; [discriminate |].
      destruct (alternative "```verilog" _) as [[w g] |]; [discriminate |].
      unfold alternative. rewrite (Text.prefix_app fence), drop_app.
      pose proof (lazyUntilFence_some b c) as Hl.
      now destruct (lazyUntilFence (b ++ fence ++ c)) as [[cap r] |]. }
    destruct (matchHere (fence ++ b ++ fence ++ c)) as [m |] eqn:E; [| contradiction].
    change ("" ++ fence ++ b ++ fence ++ c) with (fence ++ b ++ fence ++ c).
    now rewrite (regexMatch_here _ m E).
  - cbn [append regexMatch].
    now destruct (matchHere (String x (a ++ fence ++ b ++ fence ++ c))).
Qed.

(** X16: when the tutor fails, answers nothing, or answers a text without a
    closed pair of fences, the explanation is the fallback or the answer
    as it came (not trimmed) and the snippet is the fixed comment. *)
Theorem no_block_no_snippet :
  getComponentExplanation Rejected =
    {| explanation := "Failed to fetch explanation. Please check your API key or try again.";
       codeSnippet := "// Error generating code" |} /\
  getComponentExplanation (Resolved None) =
    {| explanation := "No explanation available.";
       codeSnippet := "// No code example generated." |} /\
  getComponentExplanation (Resolved (Some "")) = getComponentExplanation (Resolved None) /\
  (forall text,
     text <> "" ->
     (forall a b c, text <> a ++ fence ++ b ++ fence ++ c) ->
     getComponentExplanation (Resolved (Some text)) =
       {| explanation := text; codeSnippet := "// No code example generated." |}).
Proof.
  split; [reflexivity |]. split; [reflexivity |]. split; [reflexivity |].
  intros text Hne Hopen. unfold getComponentExplanation.
  assert (Htext : JS.or_string (Some text) "No explanation available." = text)
    by (destruct text; [contradiction | reflexivity]).
  rewrite Htext, (regexMatch_none text Hopen). reflexivity.
Qed.

Lemma no_block_no_snippet_witness :
  let text := "  A driver pulls items with `get_next_item` ``` and drives them. " in
  text <> "" /\
  getComponentExplanation (Resolved (Some text)) =
    {| explanation := text; codeSnippet := "// No code example generated." |}.
Proof.
  intros text.
  assert (Hne : text <> "") by discriminate.
  split; [exact Hne |].
  apply (proj2 (proj2 (proj2 no_block_no_snippet)) text Hne).
  intros a b c Habs. now apply (regexMatch_some text a b c).
Defined.

Lemma matchHere_no_fence (s : string) :
  String.prefix fence s = false -> matchHere s = None.
Proof.
  intros Hp.
  assert (Halt : forall tag, alternative (fence ++ tag) s = None).
  { intros tag. unfold alternative.
    destruct (String.prefix (fence ++ tag) s) eqn:H; [| reflexivity].
    apply prefix_app_l in H. congruence. }
  pose proof (Halt "systemverilog") as H1.
  pose proof (Halt "verilog") as H2.
  pose proof (Halt "") as H3.
  cbn [append fence] in H1, H2, H3.
  unfold matchHere. now rewrite H1, H2, H3.
Qed.

(** The search passes over a text in which no fence starts. *)
Lemma regexMatch_skip (before rest : string) :
  fenceFree (before ++ "``") ->
  regexMatch (before ++ fence ++ rest) = regexMatch (fence ++ rest).
Proof.
  induction before as [| c before IH]; intros Hfree; [reflexivity |].
  pose proof (fenceFree_no_prefix (String c before) (String "`" rest) Hfree) as Hp.
  change (String c before ++ "``" ++ String "`" rest)
    with (String c (before ++ fence ++ rest)) in Hp.
  cbn [append regexMatch]. rewrite matchHere_no_fence by (apply Hp; discriminate).
  apply IH. now apply fenceFree_tail with c.
Qed.

Lemma removeFirst_here (pattern after : string) :
  removeFirst pattern (pattern ++ after) = after.
Proof.
  destruct (pattern ++ after) as [| c r] eqn:E.
  - destruct pattern; [exact (eq_sym E) | discriminate].
  - cbn [removeFirst]. rewrite <- E, Text.prefix_app. apply drop_app.
Qed.

(** So does the replacement, for a pattern that starts with a fence. *)
Lemma removeFirst_skip (before block after : string) :
  fenceFree (before ++ "``") ->
  removeFirst (fence ++ block) (before ++ (fence ++ block) ++ after)
  = before ++ after.
Proof.
  induction before as [| c before IH]; intros Hfree.
  - exact (removeFirst_here (fence ++ block) after).
  - pose proof (fenceFree_no_prefix (String c before) (String "`" (block ++ after)) Hfree)
      as Hp.
    assert (Hno : String.prefix (fence ++ block)
                    (String c before ++ (fence ++ block) ++ after) = false).
    { destruct (String.prefix (fence ++ block) _) eqn:H; [| reflexivity].
      apply prefix_app_l in H. specialize (Hp ltac:(discriminate)).
      change (String c before ++ "``" ++ String "`" (block ++ after))
        with (String c before ++ (fence ++ block) ++ after) in Hp.
      congruence. }
    cbn [append removeFirst] in *. rewrite Hno. f_equal.
    apply IH. now apply fenceFree_tail with c.
Qed.

Lemma alternative_first (tag code after : string) :
  fenceFree (code ++ "``") ->
  alternative (fence ++ tag) (fence ++ tag ++ code ++ fence ++ after)
  = Some ((fence ++ tag) ++ code ++ fence, code).
Proof.
  intros Hcode. unfold alternative.
  rewrite <- (Text.app_assoc fence tag), Text.prefix_app, drop_app.
  now rewrite lazyUntilFence_first.
Qed.

Lemma alternative_other (opening s : string) :
  String.prefix opening s = false -> alternative opening s = None.
Proof.
  intros H. unfold alternative. now rewrite H.
Qed.

(** X17: a text whose first fence opens a block that is closed before any other
    fence: the snippet is the block without its fences and without the
    language tag [systemverilog] or [verilog] (any other tag stays), the
    explanation is the text around the block, both trimmed. *)
Theorem fenced_block_is_extracted (before tag code after : string) :
  fenceFree (before ++ "``") ->
  fenceFree (code ++ "``") ->
  tag = "systemverilog" \/ tag = "verilog" \/
  (tag = "" /\ String.prefix "systemverilog" code = false
            /\ String.prefix "verilog" code = false) ->
  getComponentExplanation
    (Resolved (Some (before ++ (fence ++ tag ++ code ++ fence) ++ after))) =
    {| explanation := trim (before ++ after); codeSnippet := trim code |}.
Proof.
  intros Hbefore Hcode Htag.
  set (text := before ++ (fence ++ tag ++ code ++ fence) ++ after).
  assert (Htext : JS.or_string (Some text) "No explanation available." = text).
  { subst text. destruct before; reflexivity. }
  assert (Hhere : exists m,
            matchHere (fence ++ tag ++ code ++ fence ++ after) = Some m /\
            whole m = (fence ++ tag) ++ code ++ fence /\
            firstGroup m = code).
  { pose proof (alternative_first tag code after Hcode) as Halt.
    unfold matchHere.
    destruct Htag as [-> | [-> | (-> & Hsv & Hv)]].
    - change (alternative "```systemverilog")
        with (alternative (fence ++ "systemverilog")).
      rewrite Halt. eexists. split; [reflexivity |]. split; [reflexivity |].
      unfold firstGroup. now destruct code.
    - rewrite (alternative_other "```systemverilog") by reflexivity.
      change (alternative "```verilog") with (alternative (fence ++ "verilog")).
      rewrite Halt. eexists. split; [reflexivity |]. split; [reflexivity |].
      unfold firstGroup. now destruct code.
    - rewrite (alternative_other "```systemverilog").
      2:{ pose proof (prefix_before_backquote "systemverilog" code ("``" ++ after)) as H.
          rewrite Hsv in H. apply H.
          intros [| ? [| ? [| ? [| ? [| ? [| ? [| ? [| ? [| ? [| ? [| ? [| ? [| ? [| ? ?]]]]]]]]]]]]]] ?;
            discriminate. }
      rewrite (alternative_other "```verilog").
      2:{ pose proof (prefix_before_backquote "verilog" code ("``" ++ after)) as H.
          rewrite Hv in H. apply H.
          intros [| ? [| ? [| ? [| ? [| ? [| ? [| ? [| ? ?]]]]]]]] ?; discriminate. }
      change (alternative "```") with (alternative (fence ++ "")).
      rewrite Halt. eexists. split; [reflexivity |]. split; [reflexivity |].
      unfold firstGroup. now destruct code. }
  destruct Hhere as (m & Hhere & Hwhole & Hgroup).
  unfold getComponentExplanation. rewrite Htext. subst text.
  assert (Hshape : before ++ (fence ++ tag ++ code ++ fence) ++ after
                   = before ++ fence ++ tag ++ code ++ fence ++ after)
    by now rewrite !Text.app_assoc.
  rewrite Hshape at 1.
  rewrite regexMatch_skip by exact Hbefore.
  rewrite (regexMatch_here _ _ Hhere), Hwhole, Hgroup.
  replace ((fence ++ tag) ++ code ++ fence) with (fence ++ tag ++ code ++ fence)
    by now rewrite !Text.app_assoc.
  now rewrite (removeFirst_skip before (tag ++ code ++ fence) after Hbefore).
Qed.

(** The shape of an answer of the tutor: a sentence, a fenced
    [systemverilog] block, a closing remark. *)
Lemma fenced_block_is_extracted_witness :
  let code := nl ++ "class my_driver extends uvm_driver #(my_transaction);" ++ nl
              ++ "endclass" ++ nl in
  getComponentExplanation
    (Resolved (Some ("The driver drives `req`. " ++ (fence ++ "systemverilog" ++ code ++ fence)
                     ++ nl ++ "It extends uvm_driver." ++ nl))) =
    {| explanation := "The driver drives `req`. " ++ nl ++ "It extends uvm_driver.";
       codeSnippet := "class my_driver extends uvm_driver #(my_transaction);" ++ nl
                      ++ "endclass" |}.
Proof.
  intros code.
  assert (Hfree : forall s, regexMatch (s ++ fence) = None -> fenceFree s).
  { intros s Hnone a b ->.
    apply (regexMatch_some ((a ++ fence ++ b) ++ fence) a b "");
      [now rewrite !Text.app_assoc | exact Hnone]. }
  apply (fenced_block_is_extracted "The driver drives `req`. " "systemverilog" code
           (nl ++ "It extends uvm_driver." ++ nl)).
  - apply Hfree. reflexivity.
  - apply Hfree. reflexivity.
  - now left.
Defined.

End Tutor.

(** * Properties of the chat panel *)

Module Chat.

Import JSString ChatInterface.





Lemma concat_cons (c : string) (cs : list string) :
  String.concat "" (c :: cs) = c ++ String.concat "" cs.
Proof.
  destruct cs; [symmetry; apply Text.app_nil_r | reflexivity].
Qed.

Lemma settle_other (i text : string) (l : list ChatMessage) :
  (forall m, In m l -> id m <> i) -> settle i text l = l.
Proof.
  induction l as [| m r IH]; intros Hfresh; [reflexivity |].
  cbn [settle map]. fold (settle i text r).
  destruct (String.eqb_spec (id m) i) as [Heq | _].
  - now destruct (Hfresh m (or_introl eq_refl)).
  - rewrite IH; [reflexivity |]. intros x Hx. apply Hfresh. now right.
Qed.

Lemma settle_last (i text : string) (l : list ChatMessage) (m : ChatMessage) :
  (forall x, In x l -> id x <> i) -> id m = i ->
  settle i text (l ++ [m]) =
  (l ++ [{| id := i; role := role m; content := text; isLoading := Some false |}])%list.
Proof.
  intros Hfresh Hid. unfold settle. rewrite map_app. fold (settle i text l).
  rewrite (settle_other i text l Hfresh). cbn [map].
  now rewrite Hid, String.eqb_refl.
Qed.

(** The rounds of the loop, on a transcript whose last message is the
    only one with the placeholder's id. *)
Lemma chunks_settle_placeholder (cs : list string) :
  forall (l : list ChatMessage) (ph : ChatMessage) (inp : string) (b : bool)
         (r : Request),
    (forall x, In x l -> id x <> modelMsgId r) ->
    id ph = modelMsgId r -> role ph = model -> content ph = fullText r ->
    fold_left onChunk cs
      ({| messages := (l ++ [ph])%list; input := inp; isStreaming := b |}, r)
    = ({| messages :=
            (l ++ [{| id := modelMsgId r; role := model;
                      content := fullText r ++ String.concat "" cs;
                      isLoading := match cs with
                                   | [] => isLoading ph
                                   | _ => Some false
                                   end |}])%list;
          input := inp; isStreaming := b |},
       {| modelMsgId := modelMsgId r;
          fullText := fullText r ++ String.concat "" cs |}).
Proof.
  induction cs as [| c cs IH]; intros l ph inp b r Hfresh Hid Hrole Hcontent.
  - cbn [fold_left String.concat]. rewrite Text.app_nil_r.
    destruct ph as [i ro co lo], r as [mi ft]. simpl in *. now subst.
  - cbn [fold_left onChunk]. unfold setMessages. cbn [messages input isStreaming].
    rewrite (settle_last _ _ l ph Hfresh Hid), Hrole.
    rewrite IH; try reflexivity; try exact Hfresh.
    cbn [modelMsgId fullText isLoading]. rewrite concat_cons, Text.app_assoc.
    now destruct cs.
Qed.

(** X19: a question that is sent, at a time later than the ids of the
    transcript: the transcript grows by the question and by one answer from
    the tutor, the messages before them stay as they are, the input is
    emptied and streaming is over.  The answer is the chunks in the order
    they came; after a failure it is the fixed error text whatever came
    before; and when the stream ends without a chunk the answer stays an
    empty placeholder that is still marked as loading. *)
Theorem submit_outcome (now1 now2 : Z) (o : Outcome) (st : State) :
  refused st = false ->
  now1 <= now2 ->
  (forall m, In m (messages st) ->
     exists t, t <= now2 /\ id m = JS.toString (JS.Num t)) ->
  handleSubmit now1 now2 o st =
    {| messages :=
         (messages st
          ++ [ {| id := JS.toString (JS.Num now1); role := user;
                  content := input st; isLoading := None |};
               {| id := JS.toString (JS.Num (now2 + 1)); role := model;
                  content := if failed o then "Error connecting to AI tutor."
                             else String.concat "" (chunks o);
                  isLoading := if failed o then Some false
                               else match chunks o with
                                    | [] => Some true
                                    | _ => Some false
                                    end |} ])%list;
       input := "";
       isStreaming := false |}.
Proof.
  intros Hgo Hclock Hold. unfold handleSubmit. rewrite Hgo. unfold begin.
  set (userMsg := {| id := JS.toString (JS.Num now1); role := user;
                     content := input st; isLoading := None |}).
  set (mid := JS.toString (JS.Num (now2 + 1))).
  assert (Hfresh : forall x, In x (messages st ++ [userMsg])%list -> id x <> mid).
  { intros x Hx Hid. apply in_app_or in Hx.
    assert (Ht : exists t, t <= now2 /\ id x = JS.toString (JS.Num t)).
    { destruct Hx as [Hx | [<- | []]]; [now apply Hold | now exists now1]. }
    destruct Ht as (t & Ht & Hidt). rewrite Hidt in Hid.
    apply (Builder.toString_inj (JS.Num t) (JS.Num (now2 + 1))) in Hid.
    injection Hid as Hid. lia. }
  rewrite (chunks_settle_placeholder (chunks o) (messages st ++ [userMsg])%list
             {| id := mid; role := model; content := ""; isLoading := Some true |}
             "" true {| modelMsgId := mid; fullText := "" |});
    try reflexivity; try exact Hfresh.
  cbn [modelMsgId fullText isLoading append].
  destruct (failed o).
  - unfold onError, onFinally, setMessages. cbn [messages input].
    rewrite (settle_last mid _ (messages st ++ [userMsg])%list
               {| id := mid; role := model; content := String.concat "" (chunks o);
                  isLoading := match chunks o with [] => Some true | _ => Some false end |}
               Hfresh eq_refl).
    cbn [role messages input]. now rewrite <- app_assoc.
  - unfold onFinally. cbn [fst messages input]. now rewrite <- app_assoc.
Qed.

Lemma submit_outcome_witness :
  let st := {| messages := []; input := "What is a sequencer?"; isStreaming := false |} in
  let o := {| chunks := ["A sequencer "; "arbitrates."]; failed := false |} in
  handleSubmit 1700000000000 1700000000003 o st =
    {| messages :=
         [ {| id := "1700000000000"; role := user;
              content := "What is a sequencer?"; isLoading := None |};
           {| id := "1700000000004"; role := model;
              content := "A sequencer arbitrates."; isLoading := Some false |} ];
       input := ""; isStreaming := false |}.
Proof.
  intros st o.
  apply (submit_outcome 1700000000000 1700000000003 o st);
    [reflexivity | lia | intros m []].
Defined.



End Chat.
